(** * Normal-NeuS: the experiment runner and the DiligentMV loader

    A shallow embedding of [exp_runner_psnerf.py] (class [Runner] and the
    command-line entry point) and of [models/dataset_diligentMV.py]
    (class [Dataset] and [generate_random_mask]).

    Conventions of the embedding.
    - Python [int]s are [Z]; Python [float]s and tensor entries are
      idealised as real numbers [R] (exact arithmetic, no rounding, no
      [nan]/[inf]).  A comparison of floats is [Rlt_dec].
    - A one-dimensional tensor is a [list R]; a batch of rows (shape
      [[B, n]]) is a [list (list R)]; a matrix is a list of rows.
    - Python dictionaries keyed by strings are [gmap string _].
    - A Python exception is the result [None]; every function that can
      raise returns an [option]. *)

From Stdlib Require Import ZArith Reals Lra Lia Ascii.
From stdpp Require Import base option list gmap strings pretty sorting.

(** ** Tensors of reals *)

Module Tensor.

(** [torch.sum] over the entries of a one-dimensional tensor. *)
Definition sum (v : list R) : R := foldr Rplus 0%R v.

(** Entry-wise binary operation of two tensors of the same shape. *)
Definition map2 (f : R → R → R) (u v : list R) : list R := zip_with f u v.

(** Entry-wise operation on two batches of rows. *)
Definition map2_rows (f : R → R → R) (x y : list (list R)) : list (list R) :=
  zip_with (map2 f) x y.

(** The entries of a batch in row-major order ([reshape(-1)]). *)
Definition flatten (x : list (list R)) : list R := concat x.

Lemma sum_app u v : sum (u ++ v) = (sum u + sum v)%R.
Proof.
  induction u as [|a u IH]; simpl.
  - lra.
  - rewrite IH. lra.
Qed.

Lemma sum_nonneg v : Forall (λ x, (0 <= x)%R) v → (0 <= sum v)%R.
Proof.
  induction 1 as [|a v Ha _ IH]; simpl; lra.
Qed.

Lemma sum_all_zero v : Forall (λ x, x = 0%R) v → sum v = 0%R.
Proof.
  induction 1 as [|a v Ha _ IH]; simpl; [reflexivity|]. rewrite Ha, IH. lra.
Qed.

End Tensor.

(** ** The DiligentMV data set loader ([models/dataset_diligentMV.py]) *)

Module Dataset.

Local Open Scope R_scope.

(** [Dataset.near_far_from_sphere(rays_o, rays_d)]:
<<
    a = torch.sum(rays_d**2, dim=-1, keepdim=True)
    b = 2.0 * torch.sum(rays_o * rays_d, dim=-1, keepdim=True)
    mid = 0.5 * (-b) / a
    near = mid - 1.0
    far = mid + 1.0
>>
    [rays_o] and [rays_d] have shape [[B, 3]]; the results have shape
    [[B, 1]] and are given as lists with one entry per ray. *)
Definition near_far_from_sphere (rays_o rays_d : list (list R))
  : list R * list R :=
  let a := map (λ d, Tensor.sum (map (λ x, x * x) d)) rays_d in
  let b := map (λ od, 2.0 * Tensor.sum od) (Tensor.map2_rows Rmult rays_o rays_d) in
  let mid := zip_with (λ b_i a_i, 0.5 * (- b_i) / a_i) b a in
  let near := map (λ m, m - 1.0) mid in
  let far := map (λ m, m + 1.0) mid in
  (near, far).

(** The quantities the specification names: the inner product and the
    midpoint [t_mid = -b / (2a)] with [a = |d|^2] and [b = 2 (o . d)]. *)
Definition dot (u v : list R) : R := Tensor.sum (zip_with Rmult u v).

Definition t_mid (o d : list R) : R :=
  let a := dot d d in
  let b := 2 * dot o d in
  - b / (2 * a).

(** *** Data and environment of the loader *)

(** A matrix is a list of rows; an image is [H] rows of [W] pixels of
    three channels. *)
Definition mat := list (list R).
Definition image := list (list (list R)).

(** A dense tensor in row-major order together with its shape. *)
Record tensor := { shape : list nat; data : list R }.

(** The [dataset] section of the configuration ([conf.get_string]). *)
Record conf := {
  data_dir : string;
  image_dir : string;
  mask_dir : string;
  camera_params : string;
  conf_image_num : string;
}.

(** What the loader reads from the outside: directory listings
    ([os.listdir], [os.path.isdir]), image files ([os.path.isfile],
    [cv.imread]; every file is taken to be a decodable image) and MAT
    files ([scipy.io.loadmat], a dictionary of matrices). *)
Record world := {
  dirs : gmap string (list string);
  pngs : gmap string image;
  mats : gmap string (gmap string mat);
}.

Definition isdir (w : world) (p : string) : bool := bool_decide (is_Some (dirs w !! p)).
Definition isfile (w : world) (p : string) : bool := bool_decide (is_Some (pngs w !! p)).

Definition starts_with (pre s : string) : bool := String.prefix pre s.

Definition ends_with (suf s : string) : bool :=
  (String.length suf <=? String.length s)%nat
  && String.eqb (String.substring (String.length s - String.length suf) (String.length suf) s) suf.

(** [os.path.join(a, b)] on POSIX paths. *)
Definition path_join (a b : string) : string :=
  if starts_with "/" b then b
  else if String.eqb a "" || ends_with "/" a then a +:+ b
  else a +:+ "/" +:+ b.

(** [sorted] on a list of [str]: ascending order of code points. *)
Definition str_le (a b : string) : Prop := String.leb a b = true.

#[local] Instance str_le_dec a b : Decision (str_le a b).
Proof. unfold str_le. apply _. Defined.

Definition sorted (l : list string) : list string := merge_sort str_le l.

(** [glob(os.path.join(dir, '*.png'))]: the entries of [dir] whose name
    ends in [.png] and does not start with a dot; nothing when [dir] does
    not exist. *)
Definition glob_png (w : world) (dir : string) : list string :=
  match dirs w !! dir with
  | Some entries =>
      path_join dir <$> filter (λ n, ends_with ".png" n = true ∧ starts_with "." n = false) entries
  | None => []
  end.

(** The shape of a stack of arrays as [np.stack] compares it. *)
Definition image_shape (im : image) : list (list nat) := map (map length) im.

(** [np.stack(arrays)]: raises on an empty list and on arrays of
    different shapes. *)
Definition np_stack (ims : list image) : option (list image) :=
  match ims with
  | [] => None
  | im :: rest =>
      if bool_decide (Forall (λ im', image_shape im' = image_shape im) rest)
      then Some ims else None
  end.

(** [images_np.shape[1]] and [images_np.shape[2]] of a stack of images. *)
Definition stack_height (ims : list image) : nat :=
  match ims with im :: _ => length im | [] => 0%nat end.

Definition stack_width (ims : list image) : nat :=
  match ims with (row :: _) :: _ => length row | _ => 0%nat end.

Definition is_shape (r c : nat) (m : mat) : bool :=
  bool_decide (length m = r ∧ Forall (λ row, length row = c) m).

(** [m[i, j]]; an index out of range raises. *)
Definition entry (m : mat) (i j : nat) : option R := row ← m !! i; row !! j.

(** [m / x], entry by entry. *)
Definition mat_div (m : mat) (x : R) : mat := map (map (λ y, y / x)) m.

(** [A = np.eye(4)] (or [np.zeros((4, 4))] with [A[-1, -1] = 1]) after
    [A[:3, :3] = R; A[:3, 3] = t]: the homogeneous matrix [[R, t], [0, 0, 0, 1]].
    [R] is 3 x 3 and [t] has three entries; other shapes are treated as
    the error numpy raises when the assignment cannot be broadcast. *)
Definition homogeneous (R3 : mat) (t : list R) : option mat :=
  if is_shape 3 3 R3 && bool_decide (length t = 3%nat)
  then Some (zip_with (λ row ti, row ++ [ti]) R3 t ++ [[0; 0; 0; 1]])
  else None.

(** [np.squeeze(t)] of a 3 x 1 (or 1 x 3) array. *)
Definition squeeze (t : mat) : list R := concat t.

(** The loaded data set: the fields of [self] that [__init__] sets. *)
Record t := {
  image_num : string;
  images_list : list string;
  n_images : nat;
  images : list image;
  masks_lis : list string;
  masks : tensor;
  K : mat;
  W2C_list : list mat;
  C2W_list : list mat;
  intrinsics_all : list mat;
  intrinsics_all_inv : list mat;
  pose_all : list mat;
  H : nat;
  W : nat;
}.

Section Loader.

(** [np.linalg.inv] and [torch.inverse]: the inverse of a square matrix,
    an error ([None]) when it is singular.  A library function, taken as
    a parameter. *)
Variable linalg_inv : mat → option mat.

(** The stream of uniform draws of [torch.rand], from the state of the
    generator when [__init__] starts: [rand k] is the k-th draw. *)
Variable rand : nat → R.

(** [torch.rand] of a given shape. *)
Definition torch_rand (shp : list nat) : tensor :=
  {| shape := shp; data := rand <$> seq 0 (foldr Nat.mul 1%nat shp) |}.

(** [generate_random_mask(n_images, height, width)]:
<<
    random_values = torch.rand(n_images, height, width, 3)
    threshold = 0.5
    mask = (random_values > threshold).float()
>> *)
Definition generate_random_mask (n_images height width : nat) : tensor :=
  let random_values := torch_rand [n_images; height; width; 3%nat] in
  let threshold := 0.5 in
  {| shape := shape random_values;
     data := (λ v, if Rlt_dec threshold v then 1.0 else 0.0) <$> data random_values |}.

(** [self.image_num]:
<<
    "00" + self.image_num if len(self.image_num) == 1 else "0" + self.image_num
>> *)
Definition padded_image_num (c : conf) : string :=
  if bool_decide (String.length (conf_image_num c) = 1%nat)
  then "00" +:+ conf_image_num c else "0" +:+ conf_image_num c.

(** The image files the constructor discovers: for each sub-directory of
    [image_dir], in listing order, the file [<image_num>.png] if it
    exists.
<<
    directories = [d for d in os.listdir(self.image_dir)
                   if os.path.isdir(os.path.join(self.image_dir, d))]
    for directory in directories:
        current_directory = os.path.join(self.image_dir, directory)
        if os.path.isfile(os.path.join(current_directory, self.image_num + '.png')):
            self.images_list.append(os.path.join(current_directory, self.image_num + '.png'))
>> *)
Definition discover_images (c : conf) (w : world) (num : string) : option (list string) :=
  match dirs w !! image_dir c with
  | None => None
  | Some entries =>
      let directories :=
        filter (λ d : string, isdir w (path_join (image_dir c) d) = true) entries in
      Some (omap (λ directory : string,
                    let current_directory := path_join (image_dir c) directory in
                    let p := path_join current_directory (num +:+ ".png") in
                    if isfile w p then Some p else None) directories)
  end.

(** [camera_calib_dict[f'Rc_{i}']] and [camera_calib_dict[f'Tc_{i}']];
    a missing key raises [KeyError]. *)
Definition calib_view (calib : gmap string mat) (view_idx : nat) : option (mat * mat) :=
  rotation ← calib !! ("Rc_" +:+ pretty view_idx);
  trans ← calib !! ("Tc_" +:+ pretty view_idx);
  Some (rotation, trans).

(** One round of the loop [for view_idx in range(1, 21)]: the
    world-to-camera matrix and its inverse. *)
Definition view_poses (calib : gmap string mat) (view_idx : nat) : option (mat * mat) :=
  Rt ← calib_view calib view_idx;
  W2C ← homogeneous Rt.1 (squeeze Rt.2);
  C2W ← linalg_inv W2C;
  Some (W2C, C2W).

(** [Dataset.__init__(conf)]. *)
Definition init (c : conf) (w : world) : option t :=
  let num := padded_image_num c in
  imgs_list ← discover_images c w num;
  let n := length imgs_list in
  read ← mapM (λ im_name, pngs w !! im_name) imgs_list;
  stacked ← np_stack read;
  let images_np := map (map (map (map (λ x, x / 255.0)))) stacked in
  let mlis := sorted (glob_png w (mask_dir c)) in
  let height := stack_height images_np in
  let width := stack_width images_np in
  let msk := generate_random_mask n height width in
  camera_calib_dict ← mats w !! path_join (data_dir c) (camera_params c);
  KK ← camera_calib_dict !! "KK";
  k22 ← entry KK 2 2;
  let K0 := mat_div KK k22 in
  intrinsics ← homogeneous K0 [0; 0; 0];
  _ ← mapM (λ i, calib_view camera_calib_dict (i + 1)) (seq 0 n);
  views ← mapM (view_poses camera_calib_dict) (seq 1 20);
  let intr_all := replicate n intrinsics in
  intr_inv ← mapM linalg_inv intr_all;
  Some {| image_num := num;
          images_list := imgs_list;
          n_images := n;
          images := images_np;
          masks_lis := mlis;
          masks := msk;
          K := K0;
          W2C_list := fst <$> views;
          C2W_list := snd <$> views;
          intrinsics_all := intr_all;
          intrinsics_all_inv := intr_inv;
          pose_all := snd <$> views;
          H := height;
          W := width |}.

End Loader.

Lemma near_far_lookup rays_o rays_d i o d :
  rays_o !! i = Some o → rays_d !! i = Some d →
  (near_far_from_sphere rays_o rays_d).1 !! i = Some (0.5 * (- (2.0 * dot o d)) / dot d d - 1.0)
  ∧ (near_far_from_sphere rays_o rays_d).2 !! i = Some (0.5 * (- (2.0 * dot o d)) / dot d d + 1.0).
Proof.
  intros Ho Hd. unfold near_far_from_sphere, Tensor.map2_rows, Tensor.map2, dot. simpl.
  rewrite !list_lookup_fmap, !lookup_zip_with, !list_lookup_fmap, !lookup_zip_with.
  rewrite Ho, Hd. simpl. replace (zip_with Rmult d d) with (map (λ x, x * x) d); [done|].
  clear. induction d as [|x d IH]; simpl; congruence.
Qed.

Lemma mid_is_t_mid o d : 0.5 * (- (2.0 * dot o d)) / dot d d = t_mid o d.
Proof.
  unfold t_mid. cbv zeta. unfold Rdiv. rewrite Rinv_mult. lra.
Qed.

(** C6: for every ray of the batch, [near = t_mid - 1], [far = t_mid + 1]
    with [t_mid = -b / (2a)], [a = |d|^2], [b = 2 (o . d)], and
    [far - near = 2], whatever the origin and the direction are. *)
Theorem near_far_from_sphere_width rays_o rays_d i o d :
  rays_o !! i = Some o → rays_d !! i = Some d →
  ∃ near far,
    (near_far_from_sphere rays_o rays_d).1 !! i = Some near
    ∧ (near_far_from_sphere rays_o rays_d).2 !! i = Some far
    ∧ near = t_mid o d - 1 ∧ far = t_mid o d + 1 ∧ far - near = 2.
Proof.
  intros Ho Hd. destruct (near_far_lookup _ _ _ _ _ Ho Hd) as [Hn Hf].
  eexists _, _. split; [exact Hn|]. split; [exact Hf|].
  rewrite mid_is_t_mid. repeat split; lra.
Qed.

Lemma near_far_from_sphere_width_witness :
  ∃ near far,
    (near_far_from_sphere [[0; 0; 3]] [[0; 0; -1]]).1 !! 0%nat = Some near
    ∧ (near_far_from_sphere [[0; 0; 3]] [[0; 0; -1]]).2 !! 0%nat = Some far
    ∧ near = t_mid [0; 0; 3] [0; 0; -1] - 1
    ∧ far = t_mid [0; 0; 3] [0; 0; -1] + 1 ∧ far - near = 2.
Proof.
  apply (near_far_from_sphere_width [[0; 0; 3]] [[0; 0; -1]] 0 [0; 0; 3] [0; 0; -1]);
    reflexivity.
Defined.

(** *** The pose of [gen_rays_between] *)

(** [m[:3, :3]] and [m[:3, 3]]. *)
Definition block33 (m : mat) : mat := take 3 <$> take 3 m.

Definition column3 (m : mat) : option (list R) := mapM (λ row, row !! 3%nat) (take 3 m).

(** [a * M + b * N], entry by entry. *)
Definition lincomb (a : R) (M : mat) (b : R) (N : mat) : mat :=
  zip_with (zip_with (λ x y, a * x + b * y)) M N.

(** A proper rotation: a 3 x 3 matrix with orthonormal rows and
    determinant 1. *)
Definition is_rotation (m : mat) : Prop :=
  ∃ a b c d e f g h i,
    m = [[a; b; c]; [d; e; f]; [g; h; i]]
    ∧ a * a + b * b + c * c = 1 ∧ d * d + e * e + f * f = 1 ∧ g * g + h * h + i * i = 1
    ∧ a * d + b * e + c * f = 0 ∧ a * g + b * h + c * i = 0 ∧ d * g + e * h + f * i = 0
    ∧ a * (e * i - f * h) - b * (d * i - f * g) + c * (d * h - e * g) = 1.

Section Between.

(** [np.linalg.inv], as in the loader. *)
Variable linalg_inv : mat → option mat.

(** [Slerp([0, 1], Rot.from_matrix(np.stack([rot_0, rot_1])))(ratio).as_matrix()]:
    the spherical interpolation of two rotations of scipy, a library
    function taken as a parameter; [None] is its [ValueError]. *)
Variable slerp : mat → mat → R → option mat.

(** The rotation and the translation [gen_rays_between] applies to the
    rays of the pixel grid:
<<
    pose_0 = self.pose_all[idx_0].detach().cpu().numpy()
    pose_1 = self.pose_all[idx_1].detach().cpu().numpy()
    pose_0 = np.linalg.inv(pose_0)
    pose_1 = np.linalg.inv(pose_1)
    rot_0 = pose_0[:3, :3]
    rot_1 = pose_1[:3, :3]
    rots = Rot.from_matrix(np.stack([rot_0, rot_1]))
    key_times = [0, 1]
    slerp = Slerp(key_times, rots)
    rot = slerp(ratio)
    pose = np.diag([1.0, 1.0, 1.0, 1.0])
    pose[:3, :3] = rot.as_matrix()
    pose[:3, 3] = ((1.0 - ratio) * pose_0 + ratio * pose_1)[:3, 3]
    pose = np.linalg.inv(pose)
    rot = torch.from_numpy(pose[:3, :3]).cuda()
    trans = torch.from_numpy(pose[:3, 3]).cuda()
>>
    (the value [trans] computed before these lines is overwritten). *)
Definition pose_between (poses : list mat) (idx_0 idx_1 : nat) (ratio : R)
  : option (mat * list R) :=
  p0 ← poses !! idx_0;
  p1 ← poses !! idx_1;
  pose_0 ← linalg_inv p0;
  pose_1 ← linalg_inv p1;
  let rot_0 := block33 pose_0 in
  let rot_1 := block33 pose_1 in
  rot ← slerp rot_0 rot_1 ratio;
  tr ← column3 (lincomb (1.0 - ratio) pose_0 ratio pose_1);
  pose ← homogeneous rot tr;
  pose' ← linalg_inv pose;
  trans ← column3 pose';
  Some (block33 pose', trans).

End Between.

(** Inversion of a successful chain of binds of the [option] monad. *)
Ltac inv_binds :=
  repeat match goal with
    | H : mbind _ _ = Some _ |- _ =>
        apply bind_Some in H as (? & ? & H); cbv beta zeta in H
    end.

Section LoaderFacts.

Variable linalg_inv : mat → option mat.
Variable rand : nat → R.

Local Abbreviation init := (init linalg_inv rand).

Lemma np_stack_Some ims stacked :
  np_stack ims = Some stacked → stacked = ims ∧ ims ≠ [].
Proof.
  unfold np_stack. destruct ims as [|im rest]; [done|].
  case_match; [|done]. intros [= <-]. done.
Qed.

(** What a successful run of the constructor went through. *)
Lemma init_Some c w ds :
  init c w = Some ds →
  ∃ calib views,
    image_num ds = padded_image_num c
    ∧ discover_images c w (image_num ds) = Some (images_list ds)
    ∧ n_images ds = length (images_list ds)
    ∧ length (images ds) = length (images_list ds)
    ∧ masks ds = generate_random_mask rand (n_images ds) (H ds) (W ds)
    ∧ masks_lis ds = sorted (glob_png w (mask_dir c))
    ∧ mats w !! path_join (data_dir c) (camera_params c) = Some calib
    ∧ mapM (λ i, calib_view calib (i + 1)) (seq 0 (n_images ds)) ≠ None
    ∧ mapM (view_poses linalg_inv calib) (seq 1 20) = Some views
    ∧ W2C_list ds = fst <$> views
    ∧ C2W_list ds = snd <$> views
    ∧ pose_all ds = snd <$> views
    ∧ length (intrinsics_all ds) = n_images ds.
Proof.
  unfold Dataset.init. intros Hinit. cbv zeta in Hinit. inv_binds.
  injection Hinit as <-. cbn [image_num images_list n_images images masks masks_lis
    W2C_list C2W_list pose_all intrinsics_all H W].
  eexists _, _. repeat split; try eassumption; try reflexivity.
  - match goal with Hs : np_stack _ = Some _ |- _ => apply np_stack_Some in Hs as [-> _] end.
    rewrite length_map. symmetry. by eapply length_mapM.
  - congruence.
  - apply length_replicate.
Qed.

Lemma view_poses_Some calib v p :
  view_poses linalg_inv calib v = Some p →
  ∃ rotation trans,
    calib !! ("Rc_" +:+ pretty v) = Some rotation
    ∧ calib !! ("Tc_" +:+ pretty v) = Some trans
    ∧ homogeneous rotation (squeeze trans) = Some p.1
    ∧ linalg_inv p.1 = Some p.2.
Proof.
  unfold view_poses, calib_view. intros Hv. inv_binds.
  simplify_eq. eexists _, _. simpl. done.
Qed.

Lemma first_loop_keys calib n :
  mapM (λ i, calib_view calib (i + 1)) (seq 0 n) ≠ None →
  ∀ i, (i < n)%nat →
    is_Some (calib !! ("Rc_" +:+ pretty (i + 1)%nat))
    ∧ is_Some (calib !! ("Tc_" +:+ pretty (i + 1)%nat)).
Proof.
  intros Hloop i Hi.
  assert (is_Some (calib_view calib (i + 1))) as [Rt HRt].
  { destruct (mapM _ _) as [l|] eqn:Hl; [|done].
    apply mapM_Some_1 in Hl.
    destruct (Forall2_lookup_l _ _ _ i i Hl) as (y & _ & Hy); [|by eexists].
    by apply lookup_seq. }
  unfold calib_view in HRt. inv_binds.
  split; by eexists.
Qed.

(** C10: a constructed data set has exactly 20 poses (and 20
    world-to-camera matrices), those of the calibration keys [Rc_1 .. Rc_20]
    and [Tc_1 .. Tc_20], whatever the number of images; [images] and
    [intrinsics_all] have [n_images] entries, so poses and images line up
    index by index only for 20 images; and the constructor fails when a
    key [Rc_{i+1}] or [Tc_{i+1}] with [i < n_images] is missing. *)
Theorem init_pose_count c w :
  (∀ ds, init c w = Some ds →
     ∃ calib,
       mats w !! path_join (data_dir c) (camera_params c) = Some calib
       ∧ length (pose_all ds) = 20%nat
       ∧ length (W2C_list ds) = 20%nat
       ∧ (∀ v, (1 ≤ v ≤ 20)%nat →
            ∃ rotation trans W2C C2W,
              calib !! ("Rc_" +:+ pretty v) = Some rotation
              ∧ calib !! ("Tc_" +:+ pretty v) = Some trans
              ∧ homogeneous rotation (squeeze trans) = Some W2C
              ∧ linalg_inv W2C = Some C2W
              ∧ W2C_list ds !! (v - 1)%nat = Some W2C
              ∧ pose_all ds !! (v - 1)%nat = Some C2W)
       ∧ n_images ds = length (images_list ds)
       ∧ length (images ds) = n_images ds
       ∧ length (intrinsics_all ds) = n_images ds
       ∧ (length (pose_all ds) = length (images ds) ↔ n_images ds = 20%nat)
       ∧ (∀ i, (i < n_images ds)%nat →
            is_Some (calib !! ("Rc_" +:+ pretty (i + 1)%nat))
            ∧ is_Some (calib !! ("Tc_" +:+ pretty (i + 1)%nat))))
  ∧ (∀ imgs calib i,
       discover_images c w (padded_image_num c) = Some imgs →
       mats w !! path_join (data_dir c) (camera_params c) = Some calib →
       (i < length imgs)%nat →
       calib !! ("Rc_" +:+ pretty (i + 1)%nat) = None
       ∨ calib !! ("Tc_" +:+ pretty (i + 1)%nat) = None →
       init c w = None).
Proof.
  assert (∀ ds, init c w = Some ds →
     ∃ calib views,
       mats w !! path_join (data_dir c) (camera_params c) = Some calib
       ∧ discover_images c w (padded_image_num c) = Some (images_list ds)
       ∧ n_images ds = length (images_list ds)
       ∧ length (images ds) = n_images ds
       ∧ length (intrinsics_all ds) = n_images ds
       ∧ length views = 20%nat
       ∧ Forall2 (λ v p, view_poses linalg_inv calib v = Some p) (seq 1 20) views
       ∧ W2C_list ds = fst <$> views ∧ pose_all ds = snd <$> views
       ∧ (∀ i, (i < n_images ds)%nat →
            is_Some (calib !! ("Rc_" +:+ pretty (i + 1)%nat))
            ∧ is_Some (calib !! ("Tc_" +:+ pretty (i + 1)%nat)))) as Hsome.
  { intros ds Hinit.
    destruct (init_Some _ _ _ Hinit)
      as (calib & views & Hnum & Hdisc & Hn & Hims & _ & _ & Hcal & Hloop & Hviews & HW & _ & HP & Hintr).
    exists calib, views. rewrite <- Hnum.
    repeat split; try done; try congruence.
    - apply length_mapM in Hviews. by rewrite <- Hviews, length_seq.
    - by apply mapM_Some_1.
    - eapply first_loop_keys; eauto.
    - eapply first_loop_keys; eauto. }
  split.
  - intros ds Hinit.
    destruct (Hsome ds Hinit)
      as (calib & views & Hcal & _ & Hn & Hims & Hintr & Hlen & Hviews & HW & HP & Hkeys).
    exists calib. rewrite HW, HP, !length_fmap, Hlen, Hims.
    split_and!; try done.
    intros v [Hv1 Hv20].
    destruct (Forall2_lookup_l _ _ _ (v - 1)%nat v Hviews) as (p & Hp & Hvp).
    { rewrite lookup_seq. split; lia. }
    destruct (view_poses_Some _ _ _ Hvp) as (rotation & trans & HR & Ht & Hh & Hi).
    exists rotation, trans, p.1, p.2. rewrite !list_lookup_fmap, Hp. done.
  - intros imgs calib i Hdisc Hcal Hi Hmiss.
    destruct (init c w) as [ds|] eqn:Hinit; [exfalso|done].
    destruct (Hsome ds eq_refl)
      as (calib' & views & Hcal' & Hdisc' & Hn & _ & _ & _ & _ & _ & _ & Hkeys).
    simplify_eq. destruct (Hkeys i) as [[? HR] [? HT]]; [lia|].
    destruct Hmiss; congruence.
Qed.

Lemma generate_random_mask_data n h w k :
  (k < n * h * w * 3)%nat →
  data (generate_random_mask rand n h w) !! k
  = Some (if Rlt_dec 0.5 (rand k) then 1 else 0).
Proof.
  intros Hk. unfold generate_random_mask, torch_rand. cbn [data foldr].
  rewrite !list_lookup_fmap, lookup_seq_lt by lia.
  simpl. destruct (Rlt_dec 0.5 (rand k)); f_equal; lra.
Qed.

Lemma generate_random_mask_binary n h w :
  Forall (λ x, x = 0 ∨ x = 1) (data (generate_random_mask rand n h w)).
Proof.
  unfold generate_random_mask. cbn [data]. apply Forall_fmap, Forall_true.
  intros v. simpl. destruct (Rlt_dec 0.5 v); [right|left]; lra.
Qed.

(** C8: the masks of a constructed data set come from no file: entry [k]
    is 1 when the k-th uniform draw exceeds 0.5 and 0 otherwise, so every
    entry is 0 or 1; the sorted listing [masks_lis] of the mask directory
    is stored but the masks do not depend on it: two constructions with
    the same number and size of images have the same masks, whatever the
    configuration and the files are. *)
Theorem masks_are_random_noise c w ds :
  init c w = Some ds →
  masks ds = generate_random_mask rand (n_images ds) (H ds) (W ds)
  ∧ shape (masks ds) = [n_images ds; H ds; W ds; 3%nat]
  ∧ length (data (masks ds)) = (n_images ds * H ds * W ds * 3)%nat
  ∧ (∀ k, (k < n_images ds * H ds * W ds * 3)%nat →
       data (masks ds) !! k = Some (if Rlt_dec 0.5 (rand k) then 1 else 0))
  ∧ Forall (λ x, x = 0 ∨ x = 1) (data (masks ds))
  ∧ masks_lis ds = sorted (glob_png w (mask_dir c))
  ∧ (∀ c' w' ds', init c' w' = Some ds' →
       n_images ds' = n_images ds → H ds' = H ds → W ds' = W ds →
       masks ds' = masks ds).
Proof.
  intros Hinit.
  destruct (init_Some _ _ _ Hinit) as (_ & _ & _ & _ & _ & _ & Hm & Hl & _).
  rewrite Hm. split_and!; try done.
  - unfold generate_random_mask, torch_rand. cbn [data foldr].
    rewrite !length_fmap, length_seq. lia.
  - apply generate_random_mask_data.
  - apply generate_random_mask_binary.
  - intros c' w' ds' Hinit' Hn HH HW.
    destruct (init_Some _ _ _ Hinit') as (_ & _ & _ & _ & _ & _ & Hm' & _).
    rewrite Hm'. congruence.
Qed.

End LoaderFacts.

Lemma homogeneous_Some R3 tr m :
  homogeneous R3 tr = Some m →
  ∃ a b c d e f g h i x y z,
    R3 = [[a; b; c]; [d; e; f]; [g; h; i]] ∧ tr = [x; y; z]
    ∧ m = [[a; b; c; x]; [d; e; f; y]; [g; h; i; z]; [0; 0; 0; 1]].
Proof.
  unfold homogeneous, is_shape. intros Hm.
  destruct (bool_decide _) eqn:Hs; [|done]. destruct (bool_decide (length tr = _)) eqn:Ht; [|done].
  apply bool_decide_eq_true_1 in Hs as [Hlen Hrows], Ht. simpl in Hm. injection Hm as <-.
  destruct R3 as [|r0 [|r1 [|r2 [|]]]]; try done.
  destruct tr as [|x [|y [|z [|]]]]; try done.
  apply Forall_cons in Hrows as [H0 Hrows]. apply Forall_cons in Hrows as [H1 Hrows].
  apply Forall_cons in Hrows as [H2 _].
  destruct r0 as [|a [|b [|c [|]]]]; try done.
  destruct r1 as [|d [|e [|f [|]]]]; try done.
  destruct r2 as [|g [|h [|i [|]]]]; try done.
  by eexists a, b, c, d, e, f, g, h, i, x, y, z.
Qed.

Section BetweenFacts.

Variable linalg_inv : mat → option mat.
Variable rand : nat → R.
Variable slerp : mat → mat → R → option mat.

(** In exact arithmetic the inverse of an inverse is the matrix itself,
    and an inverse has the shape of its matrix. *)
Hypothesis inv_involutive : ∀ m n, linalg_inv m = Some n → linalg_inv n = Some m.
Hypothesis inv_shape : ∀ m n, linalg_inv m = Some n → length <$> n = length <$> m.

(** At its key times 0 and 1, [Slerp] returns its key rotations. *)
Hypothesis slerp_at_0 : ∀ r0 r1, is_rotation r0 → is_rotation r1 → slerp r0 r1 0 = Some r0.
Hypothesis slerp_at_1 : ∀ r0 r1, is_rotation r0 → is_rotation r1 → slerp r0 r1 1 = Some r1.

Lemma column3_is_Some (m n : mat) a b c x d e f y g h i z :
  m = [[a; b; c; x]; [d; e; f; y]; [g; h; i; z]; [0; 0; 0; 1]] →
  length <$> n = length <$> m → is_Some (column3 n).
Proof.
  intros -> Hn. destruct n as [|r0 [|r1 [|r2 [|r3 [|]]]]]; try done.
  injection Hn as H0 H1 H2 _.
  destruct r0 as [|? [|? [|? [|? [|]]]]]; try done.
  destruct r1 as [|? [|? [|? [|? [|]]]]]; try done.
  destruct r2 as [|? [|? [|? [|? [|]]]]]; try done.
Qed.

(** The interpolation between two world-to-camera matrices whose
    inverses are stored as poses. *)
Lemma pose_between_endpoints poses idx_0 idx_1 p0 p1 w0 w1 R0 R1 t0 t1 :
  poses !! idx_0 = Some p0 → poses !! idx_1 = Some p1 →
  homogeneous R0 t0 = Some w0 → homogeneous R1 t1 = Some w1 →
  linalg_inv w0 = Some p0 → linalg_inv w1 = Some p1 →
  is_rotation R0 → is_rotation R1 →
  ∃ tr0 tr1,
    column3 p0 = Some tr0 ∧ column3 p1 = Some tr1
    ∧ pose_between linalg_inv slerp poses idx_0 idx_1 0 = Some (block33 p0, tr0)
    ∧ pose_between linalg_inv slerp poses idx_0 idx_1 1 = Some (block33 p1, tr1).
Proof.
  intros Hp0 Hp1 Hw0 Hw1 Hi0 Hi1 Hr0 Hr1.
  destruct (homogeneous_Some _ _ _ Hw0)
    as (a0 & b0 & c0 & d0 & e0 & f0 & g0 & h0 & i0 & x0 & y0 & z0 & HR0 & Ht0 & Hm0).
  destruct (homogeneous_Some _ _ _ Hw1)
    as (a1 & b1 & c1 & d1 & e1 & f1 & g1 & h1 & i1 & x1 & y1 & z1 & HR1 & Ht1 & Hm1).
  destruct (column3_is_Some _ p0 _ _ _ _ _ _ _ _ _ _ _ _ Hm0 (inv_shape _ _ Hi0)) as [tr0 Htr0].
  destruct (column3_is_Some _ p1 _ _ _ _ _ _ _ _ _ _ _ _ Hm1 (inv_shape _ _ Hi1)) as [tr1 Htr1].
  exists tr0, tr1. split; [done|]. split; [done|].
  assert (block33 w0 = R0 ∧ block33 w1 = R1) as [Hb0 Hb1] by (by subst).
  unfold pose_between. rewrite Hp0, Hp1. cbn [mbind option_bind].
  rewrite (inv_involutive _ _ Hi0), (inv_involutive _ _ Hi1). cbn [mbind option_bind].
  rewrite Hb0, Hb1, slerp_at_0, slerp_at_1 by done. cbn [mbind option_bind].
  assert (column3 (lincomb (1.0 - 0) w0 0 w1) = Some t0) as ->.
  { subst. cbn. repeat f_equal; lra. }
  assert (column3 (lincomb (1.0 - 1) w0 1 w1) = Some t1) as ->.
  { subst. cbn. repeat f_equal; lra. }
  cbn [mbind option_bind]. rewrite Hw0, Hw1. cbn [mbind option_bind].
  rewrite Hi0, Hi1. cbn [mbind option_bind]. rewrite Htr0, Htr1. done.
Qed.

(** C9, in exact arithmetic and for a calibration whose matrices [Rc_v]
    are rotations: in a constructed data set the pose interpolated
    between the views [idx_0] and [idx_1] is, at [ratio = 0], the
    rotation block and the translation column of [pose_all[idx_0]], and
    at [ratio = 1] those of [pose_all[idx_1]]. *)
Theorem gen_rays_between_endpoints c w ds calib idx_0 idx_1 p0 p1 :
  init linalg_inv rand c w = Some ds →
  mats w !! path_join (data_dir c) (camera_params c) = Some calib →
  (∀ (v : nat) rotation, (1 ≤ v ≤ 20)%nat →
     calib !! ("Rc_" +:+ pretty v) = Some rotation → is_rotation rotation) →
  pose_all ds !! idx_0 = Some p0 →
  pose_all ds !! idx_1 = Some p1 →
  ∃ trans0 trans1,
    column3 p0 = Some trans0 ∧ column3 p1 = Some trans1
    ∧ pose_between linalg_inv slerp (pose_all ds) idx_0 idx_1 0 = Some (block33 p0, trans0)
    ∧ pose_between linalg_inv slerp (pose_all ds) idx_0 idx_1 1 = Some (block33 p1, trans1).
Proof.
  intros Hinit Hcal Hrot Hp0 Hp1.
  destruct (init_Some _ _ _ _ _ Hinit)
    as (calib' & views & _ & _ & _ & _ & _ & _ & Hcal' & _ & Hviews & _ & _ & HP & _).
  simplify_eq. apply mapM_Some_1 in Hviews.
  assert (∀ idx p, pose_all ds !! idx = Some p →
            ∃ R3 tr m, homogeneous R3 tr = Some m ∧ linalg_inv m = Some p ∧ is_rotation R3)
    as Hview.
  { intros idx p Hp. rewrite HP, list_lookup_fmap in Hp.
    destruct (views !! idx) as [[m p']|] eqn:Hv; [|done]. injection Hp as ->.
    destruct (Forall2_lookup_r _ _ _ idx _ Hviews Hv) as (v & Hseq & Hvp).
    apply lookup_seq in Hseq as [-> Hidx].
    destruct (view_poses_Some _ _ _ _ Hvp) as (rotation & trans & HR & _ & Hh & Hi).
    exists rotation, (squeeze trans), m. split_and!; [done..|].
    eapply Hrot; [|done]. lia. }
  destruct (Hview _ _ Hp0) as (R0 & t0 & w0 & Hw0 & Hi0 & Hr0).
  destruct (Hview _ _ Hp1) as (R1 & t1 & w1 & Hw1 & Hi1 & Hr1).
  exact (pose_between_endpoints _ _ _ _ _ _ _ _ _ _ _ Hp0 Hp1 Hw0 Hw1 Hi0 Hi1 Hr0 Hr1).
Qed.

End BetweenFacts.

(** *** A small capture: one view directory, twenty calibrated cameras *)

Definition eye3 : mat := [[1; 0; 0]; [0; 1; 0]; [0; 0; 1]].

Definition example_calib : gmap string mat :=
  list_to_map
    (("KK", eye3)
     :: flat_map (λ v : nat, [("Rc_" +:+ pretty v, eye3);
                              ("Tc_" +:+ pretty v, [[0]; [0]; [0]])]) (seq 1 20)).

Definition example_conf : conf :=
  {| data_dir := "bear"; image_dir := "bear/img"; mask_dir := "bear/mask";
     camera_params := "Calib_Results.mat"; conf_image_num := "1" |}.

Definition example_world : world :=
  {| dirs := list_to_map [("bear/img", ["view_01"; "notes.txt"]);
                          ("bear/img/view_01", ["001.png"]);
                          ("bear/mask", ["view_01.png"])];
     pngs := {[ "bear/img/view_01/001.png" := [[[255; 255; 255]; [0; 0; 0]]] ]};
     mats := {[ "bear/Calib_Results.mat" := example_calib ]} |}.

(** On the matrices of this capture (identities) the inverse is the
    matrix itself. *)
Definition example_inv (m : mat) : option mat := Some m.

Definition example_rand (k : nat) : R := if Nat.even k then 0.75 else 0.25.

Lemma example_init_Some : is_Some (init example_inv example_rand example_conf example_world).
Proof. vm_compute. eexists. reflexivity. Qed.

Lemma init_pose_count_witness :
  ∃ ds, init example_inv example_rand example_conf example_world = Some ds
        ∧ n_images ds = 1%nat
        ∧ length (pose_all ds) = 20%nat
        ∧ length (pose_all ds) ≠ length (images ds).
Proof.
  destruct example_init_Some as [ds Hds]. exists ds. split; [exact Hds|].
  destruct (proj1 (init_pose_count example_inv example_rand example_conf example_world) ds Hds)
    as (calib & _ & Hp & _ & _ & Hn & Hi & _ & Hiff & _).
  assert (n_images ds = 1%nat) as H1.
  { rewrite Hn. clear -Hds. vm_compute in Hds. injection Hds as <-. reflexivity. }
  split; [exact H1|]. split; [exact Hp|]. rewrite Hp, Hi, H1. discriminate.
Defined.

Lemma masks_are_random_noise_witness :
  ∃ ds, init example_inv example_rand example_conf example_world = Some ds
        ∧ data (masks ds) = [1; 0; 1; 0; 1; 0].
Proof.
  destruct example_init_Some as [ds Hds]. exists ds. split; [exact Hds|].
  destruct (masks_are_random_noise example_inv example_rand example_conf example_world ds Hds)
    as (_ & _ & Hlen & Hk & _).
  assert (n_images ds = 1 ∧ H ds = 1 ∧ W ds = 2)%nat as (Hn & HH & HW).
  { clear -Hds. vm_compute in Hds. injection Hds as <-. done. }
  rewrite Hn, HH, HW in Hlen, Hk.
  apply list_eq. intros k. destruct (decide (k < 6)%nat) as [Hlt|Hge].
  - rewrite (Hk k) by (simpl; lia).
    do 6 (destruct k as [|k]; [unfold example_rand; simpl;
      destruct (Rlt_dec _ _); [try reflexivity; exfalso; lra | try reflexivity; exfalso; lra]|]).
    lia.
  - rewrite !lookup_ge_None_2; [done|simpl; lia|rewrite Hlen; simpl; lia].
Defined.

(** A stand-in for [Slerp] on the example: the linear blend, which
    agrees with the spherical one at both key times. *)
Definition example_slerp (r0 r1 : mat) (ratio : R) : option mat :=
  Some (lincomb (1 - ratio) r0 ratio r1).

Lemma example_slerp_at_0 r0 r1 :
  is_rotation r0 → is_rotation r1 → example_slerp r0 r1 0 = Some r0.
Proof.
  intros (? & ? & ? & ? & ? & ? & ? & ? & ? & -> & _) (? & ? & ? & ? & ? & ? & ? & ? & ? & -> & _).
  unfold example_slerp. cbn. repeat f_equal; lra.
Qed.

Lemma example_slerp_at_1 r0 r1 :
  is_rotation r0 → is_rotation r1 → example_slerp r0 r1 1 = Some r1.
Proof.
  intros (? & ? & ? & ? & ? & ? & ? & ? & ? & -> & _) (? & ? & ? & ? & ? & ? & ? & ? & ? & -> & _).
  unfold example_slerp. cbn. repeat f_equal; lra.
Qed.

Lemma eye3_is_rotation : is_rotation eye3.
Proof. exists 1, 0, 0, 0, 1, 0, 0, 0, 1. split; [done|]. split_and!; lra. Qed.

Lemma example_calib_rotations (v : nat) rotation :
  (1 ≤ v ≤ 20)%nat →
  example_calib !! ("Rc_" +:+ pretty v) = Some rotation → is_rotation rotation.
Proof.
  intros Hv Hl. assert (Some rotation = Some eye3) as [= ->]; [|apply eye3_is_rotation].
  rewrite <- Hl. clear Hl.
  do 21 (destruct v as [|v]; [try lia; vm_compute; reflexivity|]). lia.
Qed.

Lemma gen_rays_between_endpoints_witness :
  ∃ ds p0 p1 trans0 trans1,
    init example_inv example_rand example_conf example_world = Some ds
    ∧ pose_all ds !! 0%nat = Some p0 ∧ pose_all ds !! 1%nat = Some p1
    ∧ pose_between example_inv example_slerp (pose_all ds) 0 1 0 = Some (block33 p0, trans0)
    ∧ pose_between example_inv example_slerp (pose_all ds) 0 1 1 = Some (block33 p1, trans1).
Proof.
  destruct example_init_Some as [ds Hds].
  assert (∃ p0 p1, pose_all ds !! 0%nat = Some p0 ∧ pose_all ds !! 1%nat = Some p1)
    as (p0 & p1 & Hp0 & Hp1).
  { clear -Hds. vm_compute in Hds. injection Hds as <-. eexists _, _. split; reflexivity. }
  destruct (gen_rays_between_endpoints example_inv example_rand example_slerp
              ltac:(by intros m n [= <-]) ltac:(by intros m n [= <-])
              example_slerp_at_0 example_slerp_at_1
              example_conf example_world ds example_calib 0 1 p0 p1
              Hds eq_refl example_calib_rotations Hp0 Hp1)
    as (trans0 & trans1 & _ & _ & H0 & H1).
  exists ds, p0, p1, trans0, trans1.
  exact (conj Hds (conj Hp0 (conj Hp1 (conj H0 H1)))).
Defined.

(** *** The sampling interval and the unit sphere *)

(** The point [o + t d] of a ray. *)
Definition ray_point (o d : list R) (t : R) : list R := zip_with (λ x y, x + t * y) o d.

Lemma dot_ray_point o : ∀ d t,
  length o = length d →
  dot (ray_point o d t) (ray_point o d t) = dot o o + 2 * t * dot o d + t * t * dot d d.
Proof.
  unfold dot, ray_point, Tensor.sum.
  induction o as [|x o IH]; intros [|y d] t Hlen; try done.
  - cbn. lra.
  - cbn in Hlen. injection Hlen as Hlen. cbn [zip_with foldr]. rewrite (IH d t Hlen). lra.
Qed.

Lemma dot_self_nonneg v : 0 <= dot v v.
Proof.
  unfold dot, Tensor.sum. induction v as [|x v IH]; cbn [zip_with foldr]; [lra|]. nra.
Qed.

Lemma closest_point a b c t :
  1 <= a →
  0 <= c + 2 * (0.5 * - (2.0 * b) / a) * b + (0.5 * - (2.0 * b) / a) * (0.5 * - (2.0 * b) / a) * a →
  c + 2 * (0.5 * - (2.0 * b) / a) * b + (0.5 * - (2.0 * b) / a) * (0.5 * - (2.0 * b) / a) * a
  <= c + 2 * t * b + t * t * a
  ∧ (c + 2 * t * b + t * t * a <= 1 →
     0.5 * - (2.0 * b) / a - 1.0 <= t <= 0.5 * - (2.0 * b) / a + 1.0).
Proof.
  intros Ha. generalize (eq_refl (0.5 * - (2.0 * b) / a)).
  generalize (0.5 * - (2.0 * b) / a) at 2 3 4 5 6 7 8 as m. intros m Hm Hmid.
  assert (0.5 * - (2.0 * b) = - b) as Hhalf by lra. rewrite Hhalf in Hm.
  assert (b = - m * a) as Hb by (rewrite <- Hm; field; lra).
  assert (c + 2 * t * b + t * t * a
          = (c + 2 * m * b + m * m * a) + a * ((t - m) * (t - m))) as Hsq.
  { rewrite Hb. ring. }
  pose proof (Rle_0_sqr (t - m)) as Hsqr. unfold Rsqr in Hsqr.
  split; [nra|]. intros Hin.
  assert ((t - m) * (t - m) <= 1) as Hone by nra.
  split; nra.
Qed.

(** X17 ([near_far_from_sphere]): for a ray whose direction has length
    at least 1 (the generated rays have unit directions) the middle of the
    interval is the parameter of the point of the ray closest to the
    origin, and every point of the ray inside the unit sphere has its
    parameter between [near] and [far]. *)
Theorem near_far_brackets_unit_sphere rays_o rays_d i o d near far :
  rays_o !! i = Some o → rays_d !! i = Some d →
  length o = length d → 1 <= dot d d →
  (near_far_from_sphere rays_o rays_d).1 !! i = Some near →
  (near_far_from_sphere rays_o rays_d).2 !! i = Some far →
  (∀ t, dot (ray_point o d (near + 1)) (ray_point o d (near + 1))
        <= dot (ray_point o d t) (ray_point o d t))
  ∧ (∀ t, dot (ray_point o d t) (ray_point o d t) <= 1 → near <= t <= far).
Proof.
  intros Ho Hd Hlen Ha Hnear Hfar.
  destruct (near_far_lookup _ _ _ _ _ Ho Hd) as [Hn Hf].
  rewrite Hn in Hnear. rewrite Hf in Hfar. injection Hnear as <-. injection Hfar as <-.
  pose proof (dot_self_nonneg (ray_point o d (0.5 * - (2.0 * dot o d) / dot d d))) as Hmid.
  rewrite dot_ray_point in Hmid by done.
  replace (0.5 * - (2.0 * dot o d) / dot d d - 1.0 + 1)
    with (0.5 * - (2.0 * dot o d) / dot d d) by lra.
  split; intros t; rewrite !dot_ray_point by done;
    by apply (closest_point (dot d d) (dot o d) (dot o o) t).
Qed.

Lemma near_far_brackets_unit_sphere_witness :
  ∃ near far,
    (near_far_from_sphere [[0; 0; 3]] [[0; 0; -1]]).1 !! 0%nat = Some near
    ∧ (near_far_from_sphere [[0; 0; 3]] [[0; 0; -1]]).2 !! 0%nat = Some far
    ∧ ∀ t, dot (ray_point [0; 0; 3] [0; 0; -1] t) (ray_point [0; 0; 3] [0; 0; -1] t) <= 1 →
           near <= t <= far.
Proof.
  destruct (near_far_lookup [[0; 0; 3]] [[0; 0; -1]] 0 [0; 0; 3] [0; 0; -1] eq_refl eq_refl)
    as [Hn Hf].
  eexists _, _. split; [exact Hn|]. split; [exact Hf|].
  apply (near_far_brackets_unit_sphere [[0; 0; 3]] [[0; 0; -1]] 0 [0; 0; 3] [0; 0; -1]);
    [reflexivity|reflexivity|reflexivity| |exact Hn|exact Hf].
  unfold dot. cbn. lra.
Defined.

(** *** Images and intrinsics of a constructed data set *)

Lemma np_stack_shapes ims stacked :
  np_stack ims = Some stacked →
  ∃ im rest, ims = im :: rest ∧ stacked = ims
    ∧ Forall (λ im', image_shape im' = image_shape im) rest.
Proof.
  unfold np_stack. destruct ims as [|im rest]; [done|].
  case_bool_decide as Hshape; [|done]. intros [= <-]. by exists im, rest.
Qed.

Lemma image_shape_length im im' : image_shape im' = image_shape im → length im' = length im.
Proof.
  unfold image_shape. intros Heq. apply (f_equal length) in Heq. by rewrite !length_map in Heq.
Qed.

Lemma scaled_pixels (read : list image) :
  Forall (Forall (Forall (Forall (λ x, 0 <= x <= 255)))) read →
  Forall (Forall (Forall (Forall (λ x, 0 <= x <= 1))))
         (map (map (map (map (λ x, x / 255.0)))) read).
Proof.
  intros Hread.
  apply Forall_fmap. eapply Forall_impl; [exact Hread|]. intros im Him.
  apply Forall_fmap. eapply Forall_impl; [exact Him|]. intros row Hrow.
  apply Forall_fmap. eapply Forall_impl; [exact Hrow|]. intros px Hpx.
  apply Forall_fmap. eapply Forall_impl; [exact Hpx|]. intros x Hx. simpl. lra.
Qed.

Lemma lookup_map {A B} (f : A → B) (l : list A) i : map f l !! i = f <$> l !! i.
Proof. revert i. induction l as [|a l IH]; intros [|i]; try done. apply IH. Qed.

Lemma entry_mat_div m x i j : entry (mat_div m x) i j = (λ y, y / x) <$> entry m i j.
Proof.
  unfold entry, mat_div, mat in *. rewrite lookup_map.
  destruct (m !! i) as [row|]; cbn; [|reflexivity]. by rewrite lookup_map.
Qed.

Section LoaderInvariants.

Variable linalg_inv : mat → option mat.
Variable rand : nat → R.

Local Abbreviation init := (init linalg_inv rand).

(** X18 ([Dataset.__init__]): a data set is only constructed from at
    least one image; the images read all have the shape of the first (so
    each has [H] rows), and the stored pixel values are the values read
    divided by 255, hence in [0, 1] for 8-bit images. *)
Theorem init_images c w ds :
  init c w = Some ds →
  ∃ read,
    mapM (λ im_name, pngs w !! im_name) (images_list ds) = Some read
    ∧ (1 ≤ n_images ds)%nat
    ∧ length read = n_images ds
    ∧ images ds = map (map (map (map (λ x, x / 255.0)))) read
    ∧ Forall (λ im, image_shape im = image_shape (default [] (head read))) read
    ∧ Forall (λ im, length im = H ds) (images ds)
    ∧ (Forall (Forall (Forall (Forall (λ x, 0 <= x <= 255)))) read →
       Forall (Forall (Forall (Forall (λ x, 0 <= x <= 1)))) (images ds)).
Proof.
  unfold Dataset.init. intros Hinit. cbv zeta in Hinit. inv_binds.
  injection Hinit as <-. cbn [images_list n_images images H].
  match goal with Hs : np_stack _ = Some _ |- _ =>
    apply np_stack_shapes in Hs as (im & rest & -> & -> & Hshape) end.
  match goal with Hm : mapM _ _ = Some (im :: rest) |- _ =>
    pose proof (length_mapM _ _ _ Hm) as Hlen; cbn in Hlen end.
  exists (im :: rest). split_and!; try done; try lia.
  - cbn [head default]. by apply Forall_cons.
  - change (map ?f (im :: rest)) with (f im :: map f rest). cbn [stack_height].
    apply Forall_cons. split; [done|]. rewrite !length_map.
    apply Forall_fmap. eapply Forall_impl; [exact Hshape|]. intros im' Him'. simpl.
    rewrite length_map. by apply image_shape_length.
  - apply scaled_pixels.
Qed.

(** X19 ([Dataset.__init__]): all views share one intrinsic matrix,
    the calibration matrix [KK] divided by its entry [KK[2, 2]] and
    extended to 4 x 4; its entry [2, 2] is 1 when [KK[2, 2]] is not 0,
    and every stored inverse is the inverse of that one matrix. *)
Theorem init_intrinsics c w ds :
  init c w = Some ds →
  ∃ calib KK k22 intrinsics,
    mats w !! path_join (data_dir c) (camera_params c) = Some calib
    ∧ calib !! "KK" = Some KK
    ∧ entry KK 2 2 = Some k22
    ∧ K ds = mat_div KK k22
    ∧ homogeneous (K ds) [0; 0; 0] = Some intrinsics
    ∧ intrinsics_all ds = replicate (n_images ds) intrinsics
    ∧ length (intrinsics_all_inv ds) = n_images ds
    ∧ (∀ i m, intrinsics_all_inv ds !! i = Some m → linalg_inv intrinsics = Some m)
    ∧ entry intrinsics 3 3 = Some 1
    ∧ (k22 ≠ 0 → entry intrinsics 2 2 = Some 1).
Proof.
  unfold Dataset.init. intros Hinit. cbv zeta in Hinit. inv_binds.
  injection Hinit as <-. cbn [K intrinsics_all intrinsics_all_inv n_images].
  lazymatch goal with
  | Hc : mats w !! _ = Some ?calib, HK : ?calib !! _ = Some ?KK,
    Hk : entry ?KK _ _ = Some ?k22, Hh : homogeneous (mat_div ?KK ?k22) _ = Some ?m,
    Hi : mapM linalg_inv _ = Some _ |- _ =>
      exists calib, KK, k22, m;
      pose proof (length_mapM _ _ _ Hi) as Hlen; apply mapM_Some_1 in Hi;
      pose proof (homogeneous_Some _ _ _ Hh)
        as (ka & kb & kc & kd & ke & kf & kg & kh & ki & kx & ky & kz & HK0 & _ & Hm);
      pose proof (entry_mat_div KK k22 2 2) as Hentry; rewrite Hk in Hentry;
      rename Hi into Hinv
  end.
  rewrite length_replicate in Hlen.
  split_and!; try done.
  - intros i m Hm'.
    destruct (Forall2_lookup_r _ _ _ i _ Hinv Hm') as (m0 & Hm0 & Hi0).
    apply lookup_replicate in Hm0 as [-> _]. done.
  - by rewrite Hm.
  - intros Hk22. rewrite Hm. rewrite HK0 in Hentry. cbn in Hentry |- *.
    rewrite Hentry. f_equal. by field.
Qed.

End LoaderInvariants.

Lemma init_images_witness :
  ∃ ds, Dataset.init example_inv example_rand example_conf example_world = Some ds
    ∧ (1 ≤ n_images ds)%nat
    ∧ Forall (λ im, length im = H ds) (images ds).
Proof.
  destruct example_init_Some as [ds Hds]. exists ds. split; [exact Hds|].
  destruct (init_images example_inv example_rand example_conf example_world ds Hds)
    as (read & _ & Hn & _ & _ & _ & HH & _).
  exact (conj Hn HH).
Defined.

Lemma init_intrinsics_witness :
  ∃ ds intrinsics,
    Dataset.init example_inv example_rand example_conf example_world = Some ds
    ∧ intrinsics_all ds = replicate (n_images ds) intrinsics
    ∧ entry intrinsics 3 3 = Some 1.
Proof.
  destruct example_init_Some as [ds Hds].
  destruct (init_intrinsics example_inv example_rand example_conf example_world ds Hds)
    as (calib & KK & k22 & intrinsics & _ & _ & _ & _ & _ & Hall & _ & _ & H33 & _).
  exists ds, intrinsics. exact (conj Hds (conj Hall H33)).
Defined.

(** *** The interpolated pose at any ratio *)

Section BetweenAnyRatio.

Variable linalg_inv : mat → option mat.
Variable slerp : mat → mat → R → option mat.

(** In exact arithmetic the inverse of an inverse is the matrix itself. *)
Hypothesis inv_involutive : ∀ m n, linalg_inv m = Some n → linalg_inv n = Some m.

(** X20 ([gen_rays_between]): between two stored poses, the inverses of
    the world-to-camera matrices [[R0 | t0]] and [[R1 | t1]], the pose
    applied to the rays is the inverse of the world-to-camera matrix made
    of the rotation [slerp(R0, R1, ratio)] and of the translation
    [(1 - ratio) t0 + ratio t1]: the interpolation is linear in the
    world-to-camera translations, at every ratio. *)
Theorem pose_between_interpolates poses idx_0 idx_1 ratio p0 p1 w0 w1 R0 R1 t0 t1 :
  poses !! idx_0 = Some p0 → poses !! idx_1 = Some p1 →
  homogeneous R0 t0 = Some w0 → homogeneous R1 t1 = Some w1 →
  linalg_inv w0 = Some p0 → linalg_inv w1 = Some p1 →
  pose_between linalg_inv slerp poses idx_0 idx_1 ratio
  = (rot ← slerp R0 R1 ratio;
     pose ← homogeneous rot (zip_with (λ x y, (1.0 - ratio) * x + ratio * y) t0 t1);
     pose' ← linalg_inv pose;
     trans ← column3 pose';
     Some (block33 pose', trans)).
Proof.
  intros Hp0 Hp1 Hw0 Hw1 Hi0 Hi1.
  destruct (homogeneous_Some _ _ _ Hw0)
    as (a0 & b0 & c0 & d0 & e0 & f0 & g0 & h0 & i0 & x0 & y0 & z0 & HR0 & Ht0 & Hm0).
  destruct (homogeneous_Some _ _ _ Hw1)
    as (a1 & b1 & c1 & d1 & e1 & f1 & g1 & h1 & i1 & x1 & y1 & z1 & HR1 & Ht1 & Hm1).
  assert (block33 w0 = R0 ∧ block33 w1 = R1) as [Hb0 Hb1] by (by subst).
  unfold pose_between. rewrite Hp0, Hp1. cbn [mbind option_bind].
  rewrite (inv_involutive _ _ Hi0), (inv_involutive _ _ Hi1). cbn [mbind option_bind].
  rewrite Hb0, Hb1. destruct (slerp R0 R1 ratio) as [rot|]; [|done]. cbn [mbind option_bind].
  assert (column3 (lincomb (1.0 - ratio) w0 ratio w1)
          = Some (zip_with (λ x y, (1.0 - ratio) * x + ratio * y) t0 t1)) as ->.
  { subst. reflexivity. }
  reflexivity.
Qed.

End BetweenAnyRatio.

Lemma pose_between_interpolates_witness :
  pose_between example_inv example_slerp
    [[[1; 0; 0; 0]; [0; 1; 0; 0]; [0; 0; 1; 0]; [0; 0; 0; 1]];
     [[1; 0; 0; 0]; [0; 1; 0; 0]; [0; 0; 1; 0]; [0; 0; 0; 1]]] 0 1 0.5
  = (rot ← example_slerp eye3 eye3 0.5;
     pose ← homogeneous rot (zip_with (λ x y, (1.0 - 0.5) * x + 0.5 * y) [0; 0; 0] [0; 0; 0]);
     pose' ← example_inv pose;
     trans ← column3 pose';
     Some (block33 pose', trans)).
Proof.
  apply (pose_between_interpolates example_inv example_slerp ltac:(by intros m n [= <-]) _ 0 1 0.5
           [[1; 0; 0; 0]; [0; 1; 0; 0]; [0; 0; 1; 0]; [0; 0; 0; 1]]
           [[1; 0; 0; 0]; [0; 1; 0; 0]; [0; 0; 1; 0]; [0; 0; 0; 1]]
           [[1; 0; 0; 0]; [0; 1; 0; 0]; [0; 0; 1; 0]; [0; 0; 0; 1]]
           [[1; 0; 0; 0]; [0; 1; 0; 0]; [0; 0; 1; 0]; [0; 0; 0; 1]]
           eye3 eye3 [0; 0; 0] [0; 0; 0]); reflexivity.
Defined.

End Dataset.

(** ** The experiment runner ([exp_runner_psnerf.py]) *)

Module Runner.

Local Open Scope R_scope.

(** *** Configuration and state *)

(** The keys of the [train] section the embedded methods read
    ([conf.get_int], [conf.get_float]); [patience] is [None] when the key
    [train.patience] is absent. *)
Record config := {
  end_iter : Z;
  val_freq : Z;
  learning_rate : R;
  learning_rate_alpha : R;
  warm_up_end : R;
  mask_weight : R;
  patience : option Z;
}.

(** [self.conf.get_int('train.patience', default=10)]. *)
Definition get_patience (cfg : config) : Z := default 10%Z (patience cfg).

(** [state_dict()] of a network: the tensors by parameter name. *)
Abbreviation state_dict := (gmap string (list R)).

(** A parameter group of the optimizer: its learning rate and the
    indices of its parameters (the other hyper-parameters of Adam are
    never written by the runner). *)
Record param_group := { lr : R; params : list nat }.

(** [state_dict()] of the optimizer. *)
Record optimizer_state := {
  param_groups : list param_group;
  opt_state : gmap nat (list R);
}.

(** The fields of [self] that checkpoints and the schedule touch. *)
Record t := {
  conf : config;
  base_exp_dir : string;
  iter_step : Z;
  nerf_outside : state_dict;
  sdf_network : state_dict;
  deviation_network : state_dict;
  color_network : state_dict;
  optimizer : optimizer_state;
}.

(** *** Learning-rate schedule *)

(** The factor of [update_learning_rate]:
<<
    if self.iter_step < self.warm_up_end:
        learning_factor = self.iter_step / self.warm_up_end
    else:
        alpha = self.learning_rate_alpha
        progress = (self.iter_step - self.warm_up_end) / (self.end_iter - self.warm_up_end)
        learning_factor = (np.cos(np.pi * progress) + 1.0) * 0.5 * (1 - alpha) + alpha
>>
    A division of Python floats by zero raises [ZeroDivisionError]. *)
Definition learning_factor (cfg : config) (iter_step : Z) : option R :=
  if Rlt_dec (IZR iter_step) (warm_up_end cfg) then
    if Req_dec_T (warm_up_end cfg) 0 then None
    else Some (IZR iter_step / warm_up_end cfg)
  else
    let alpha := learning_rate_alpha cfg in
    if Req_dec_T (IZR (end_iter cfg) - warm_up_end cfg) 0 then None
    else
      let progress :=
        (IZR iter_step - warm_up_end cfg) / (IZR (end_iter cfg) - warm_up_end cfg) in
      Some ((cos (PI * progress) + 1.0) * 0.5 * (1 - alpha) + alpha).

Definition set_lr (x : R) (g : param_group) : param_group :=
  {| lr := x; params := params g |}.

(** [update_learning_rate]: the loop
<<
    for g in self.optimizer.param_groups:
        g['lr'] = self.learning_rate * learning_factor
>> *)
Definition update_learning_rate (r : t) : option t :=
  f ← learning_factor (conf r) (iter_step r);
  let opt := optimizer r in
  Some {| conf := conf r; base_exp_dir := base_exp_dir r; iter_step := iter_step r;
          nerf_outside := nerf_outside r; sdf_network := sdf_network r;
          deviation_network := deviation_network r; color_network := color_network r;
          optimizer := {| param_groups := set_lr (learning_rate (conf r) * f) <$> param_groups opt;
                          opt_state := opt_state opt |} |}.

(** *** Losses of one training iteration *)

(** [F.l1_loss(input, target)] with the default reduction, the mean
    over all entries. *)
Definition l1_loss (input target : list (list R)) : R :=
  let diffs := Tensor.flatten (Tensor.map2_rows (λ x y, Rabs (x - y)) input target) in
  Tensor.sum diffs / INR (length diffs).

Definition zeros_like (x : list (list R)) : list (list R) := map (map (λ _, 0)) x.

(** [(surface_points_normal - true_normal) * normal_mask], the mask of
    shape [[B, 1]] broadcast over the three columns. *)
Definition normal_error (surface_points_normal true_normal : list (list R))
    (normal_mask : list R) : list (list R) :=
  zip_with (λ row m, map (λ x, x * m) row)
           (Tensor.map2_rows Rminus surface_points_normal true_normal) normal_mask.

(** The normal loss of [train]:
<<
    if(normal_error.shape[0] > 0):
        normal_loss = F.l1_loss(normal_error, torch.zeros_like(normal_error))
    else:
        normal_loss = 0.0
>> *)
Definition normal_loss (surface_points_normal true_normal : list (list R))
    (normal_mask : list R) : R :=
  let e := normal_error surface_points_normal true_normal normal_mask in
  if bool_decide (0 < length e)%nat then l1_loss e (zeros_like e) else 0.0.

(** The rows of [x] whose mask entry selects them (is not zero). *)
Fixpoint select_rows (x : list (list R)) (mask : list R) : list (list R) :=
  match x, mask with
  | row :: x', m :: mask' =>
      if Req_dec_T m 0 then select_rows x' mask' else row :: select_rows x' mask'
  | _, _ => []
  end.

(** The normal loss as the specification words it: the mean absolute
    error over the entries the normal mask selects, zero when it selects
    none. *)
Definition restricted_mae (surface_points_normal true_normal : list (list R))
    (normal_mask : list R) : R :=
  let s := select_rows surface_points_normal normal_mask in
  let g := select_rows true_normal normal_mask in
  let diffs := Tensor.flatten (Tensor.map2_rows (λ x y, Rabs (x - y)) s g) in
  if bool_decide (0 < length diffs)%nat then Tensor.sum diffs / INR (length diffs) else 0.

(** *** Mask-normalised divisors *)

(** A float division that has no real value when the divisor is zero
    (numpy and torch return [inf] or [nan] there). *)
Definition fdiv (x y : R) : option R := if Req_dec_T y 0 then None else Some (x / y).

(** The mask of [train] and [evaluate]:
<<
    if self.mask_weight > 0.0:
        mask = (mask > 0.5).int()
    else:
        mask = torch.ones(true_rgb.shape[0], 1).to(self.device)
>> *)
Definition binarize_mask (cfg : config) (mask : list R) (batch : nat) : list R :=
  if Rlt_dec 0.0 (mask_weight cfg)
  then (λ m, if Rlt_dec 0.5 m then 1 else 0) <$> mask
  else replicate batch 1.

(** [mask_sum = mask.sum() + 1e-5], in [train] and again in [evaluate]. *)
Definition train_mask_sum (mask : list R) : R := Tensor.sum mask + 1e-5.
Definition evaluate_mask_sum (mask : list R) : R := Tensor.sum mask + 1e-5.

(** The mean squared error under the PSNR,
    [((color_fine - true_rgb)**2 * mask).sum() / (mask_sum * 3.0)],
    from the sum of the squared masked errors. *)
Definition train_psnr_mse (sq_err_sum : R) (mask : list R) : option R :=
  fdiv sq_err_sum (train_mask_sum mask * 3.0).

Definition evaluate_psnr_mse (sq_err_sum : R) (mask : list R) : option R :=
  fdiv sq_err_sum (evaluate_mask_sum mask * 3.0).

(** The photometric loss of [train]: [F.l1_loss(..., reduction='sum') / mask_sum]. *)
Definition train_color_loss (abs_err_sum : R) (mask : list R) : option R :=
  fdiv abs_err_sum (train_mask_sum mask).

(** In [validate_image] the mask is [mask_gt], an integer array, and the
    quotient is
    [((rgb_color_pred - rgb_color_gt)**2 * mask_gt).sum() / (mask_gt.sum() * 3.0)]. *)
Definition validate_image_psnr_mse (sq_err_sum : R) (mask_gt : list Z) : option R :=
  fdiv sq_err_sum (IZR (foldr Z.add 0%Z mask_gt) * 3.0).

(** *** Early stopping in the training loop *)

(** The bookkeeping of [train]: the iteration counter and the locals and
    fields of the early-stopping check.  [patience_counter] is a local
    variable that is unbound ([None]) until the first validation check
    assigns it. *)
Record train_state := {
  ts_iter_step : Z;
  best_val_metric : option R;
  best_val_iter : Z;
  patience_counter : option Z;
  early_stop : bool;
  losses_val : list R;
  psnrs_val : list R;
}.

Inductive flow := Continue | Break.

Section Train.

Variable cfg : config.

(** [loss_at n] is the value of [loss] in the iteration that raises
    [self.iter_step] to [n] (the rendering, the losses and the optimiser
    step are outside the model). *)
Variable loss_at : Z → R.

(** [psnr_at n] is the value of [psnr] in that iteration. *)
Variable psnr_at : Z → R.

(** The validation branch of the loop body, after [self.iter_step += 1]:
<<
    if self.iter_step % self.val_freq == 0:
        self.validate_image()
        self.losses_val.append(loss.item())
        self.psnrs_val.append(psnr.item())
        if self.best_val_metric is None or loss < self.best_val_metric:
            self.best_val_metric = loss
            self.best_val_iter = self.iter_step
            patience_counter = 0
        else:
            patience_counter += 1
            if patience_counter >= self.patience:
                self.early_stop = True
                print(f"Early stopping at iteration ...")
                break
>>
    [s] already carries the incremented counter. *)
Definition validation_check (s : train_state) : option (train_state * flow) :=
  let loss := loss_at (ts_iter_step s) in
  let losses := losses_val s ++ [loss] in
  let psnrs := psnrs_val s ++ [psnr_at (ts_iter_step s)] in
  let improved :=
    Some ({| ts_iter_step := ts_iter_step s; best_val_metric := Some loss;
             best_val_iter := ts_iter_step s; patience_counter := Some 0%Z;
             early_stop := early_stop s; losses_val := losses; psnrs_val := psnrs |}, Continue) in
  let not_improved :=
    c ← patience_counter s;
    let c' := (c + 1)%Z in
    if (get_patience cfg <=? c')%Z
    then Some ({| ts_iter_step := ts_iter_step s; best_val_metric := best_val_metric s;
                  best_val_iter := best_val_iter s; patience_counter := Some c';
                  early_stop := true; losses_val := losses; psnrs_val := psnrs |}, Break)
    else Some ({| ts_iter_step := ts_iter_step s; best_val_metric := best_val_metric s;
                  best_val_iter := best_val_iter s; patience_counter := Some c';
                  early_stop := early_stop s; losses_val := losses; psnrs_val := psnrs |}, Continue) in
  match best_val_metric s with
  | None => improved
  | Some best => if Rlt_dec loss best then improved else not_improved
  end.

(** One round of [for _ in tqdm(range(res_step))].  [x % 0] raises
    [ZeroDivisionError]; for other divisors Python's [%] is [Z.modulo]. *)
Definition train_body (s : train_state) : option (train_state * flow) :=
  if early_stop s then Some (s, Break)
  else
    let s1 := {| ts_iter_step := ts_iter_step s + 1; best_val_metric := best_val_metric s;
                 best_val_iter := best_val_iter s; patience_counter := patience_counter s;
                 early_stop := early_stop s; losses_val := losses_val s;
                 psnrs_val := psnrs_val s |} in
    if (val_freq cfg =? 0)%Z then None
    else if (ts_iter_step s1 `mod` val_freq cfg =? 0)%Z then validation_check s1
    else Some (s1, Continue).

Fixpoint train_loop (rounds : nat) (s : train_state) : option train_state :=
  match rounds with
  | O => Some s
  | S rounds' =>
      match train_body s with
      | None => None
      | Some (s', Break) => Some s'
      | Some (s', Continue) => train_loop rounds' s'
      end
  end.

(** [train], from the iteration counter the runner starts with:
<<
    res_step = self.end_iter - self.iter_step
    self.best_val_metric = None
    self.best_val_iter = 0
    self.patience = self.conf.get_int('train.patience', default=10)
    self.early_stop = False
    self.losses_val, self.psnrs_val = [], []
    for _ in tqdm(range(res_step)): ...
>> *)
Definition train (iter_step0 : Z) : option train_state :=
  let res_step := (end_iter cfg - iter_step0)%Z in
  train_loop (Z.to_nat res_step)
    {| ts_iter_step := iter_step0; best_val_metric := None; best_val_iter := 0%Z;
       patience_counter := None; early_stop := false; losses_val := [];
       psnrs_val := [] |}.

End Train.

(** *** Checkpoints *)

(** The dictionary [save_checkpoint] hands to [torch.save]. *)
Record checkpoint := {
  ck_nerf : state_dict;
  ck_sdf_network_fine : state_dict;
  ck_variance_network_fine : state_dict;
  ck_color_network_fine : state_dict;
  ck_optimizer : optimizer_state;
  ck_iter_step : Z;
}.

Inductive file := TorchFile (c : checkpoint) | OtherFile.

(** The file system: the entries of each existing directory, by name. *)
Abbreviation filesystem := (gmap string (gmap string file)).

(** [os.makedirs(dir, exist_ok=True)]. *)
Definition makedirs (dir : string) (fs : filesystem) : filesystem :=
  match fs !! dir with Some _ => fs | None => <[dir := ∅]> fs end.

(** [torch.save(obj, os.path.join(dir, name))] into an existing directory. *)
Definition torch_save (c : checkpoint) (dir name : string) (fs : filesystem) : filesystem :=
  <[dir := <[name := TorchFile c]> (default ∅ (fs !! dir))]> fs.

(** [torch.load(os.path.join(dir, name))]: an error when the file is
    missing or holds no pickled checkpoint. *)
Definition torch_load (dir name : string) (fs : filesystem) : option checkpoint :=
  entries ← fs !! dir;
  f ← entries !! name;
  match f with TorchFile c => Some c | OtherFile => None end.

(** [os.listdir(dir)], in the order the system lists the names. *)
Definition listdir (dir : string) (fs : filesystem) : option (list string) :=
  entries ← fs !! dir; Some (map_to_list entries).*1.

(** ['{:0>6d}'.format(n)]: the decimal rendering of [n], filled with ['0']
    on the left up to a width of six characters. *)
Definition format_0_gt_6d (n : Z) : string :=
  let digits := pretty n in
  String.concat "" (replicate (6 - String.length digits) "0") +:+ digits.

Definition checkpoint_name (n : Z) : string := "ckpt_" +:+ format_0_gt_6d n +:+ ".pth".

Definition checkpoints_dir (r : t) : string := Dataset.path_join (base_exp_dir r) "checkpoints".

(** [save_checkpoint]. *)
Definition save_checkpoint (r : t) (fs : filesystem) : filesystem :=
  let ckpt := {| ck_nerf := nerf_outside r;
                 ck_sdf_network_fine := sdf_network r;
                 ck_variance_network_fine := deviation_network r;
                 ck_color_network_fine := color_network r;
                 ck_optimizer := optimizer r;
                 ck_iter_step := iter_step r |} in
  torch_save ckpt (checkpoints_dir r) (checkpoint_name (iter_step r))
             (makedirs (checkpoints_dir r) fs).

(** [module.load_state_dict(sd)] (strict): the names and the sizes of the
    tensors must be those of the module. *)
Definition load_state_dict (current sd : state_dict) : option state_dict :=
  if bool_decide (length <$> current = length <$> sd) then Some sd else None.

(** [optimizer.load_state_dict(sd)]: the groups must match those of the
    optimizer in number and in the number of their parameters. *)
Definition optimizer_load_state_dict (current sd : optimizer_state) : option optimizer_state :=
  if bool_decide ((length ∘ params) <$> param_groups current = (length ∘ params) <$> param_groups sd)
  then Some sd else None.

(** [load_checkpoint(checkpoint_name)]. *)
Definition load_checkpoint (r : t) (name : string) (fs : filesystem) : option t :=
  ckpt ← torch_load (checkpoints_dir r) name fs;
  nerf ← load_state_dict (nerf_outside r) (ck_nerf ckpt);
  sdf ← load_state_dict (sdf_network r) (ck_sdf_network_fine ckpt);
  dev ← load_state_dict (deviation_network r) (ck_variance_network_fine ckpt);
  col ← load_state_dict (color_network r) (ck_color_network_fine ckpt);
  opt ← optimizer_load_state_dict (optimizer r) (ck_optimizer ckpt);
  Some {| conf := conf r; base_exp_dir := base_exp_dir r; iter_step := ck_iter_step ckpt;
          nerf_outside := nerf; sdf_network := sdf; deviation_network := dev;
          color_network := col; optimizer := opt |}.

(** Two runners built from the same configuration: the same experiment
    directory, networks with the same parameter names and sizes, and
    optimizers with the same groups. *)
Definition same_architecture (r r' : t) : Prop :=
  base_exp_dir r = base_exp_dir r'
  ∧ length <$> nerf_outside r = length <$> nerf_outside r'
  ∧ length <$> sdf_network r = length <$> sdf_network r'
  ∧ length <$> deviation_network r = length <$> deviation_network r'
  ∧ length <$> color_network r = length <$> color_network r'
  ∧ (length ∘ params) <$> param_groups (optimizer r)
    = (length ∘ params) <$> param_groups (optimizer r').

(** *** Construction and the command line *)

(** [s[-3:]] and [s[5:-4]]. *)
Definition slice_last3 (s : string) : string :=
  String.substring (String.length s - 3) 3 s.

Definition slice_5_to_minus4 (s : string) : string :=
  String.substring 5 (String.length s - 4 - 5) s.

Definition digit_of (a : ascii) : option Z :=
  let n := Z.of_nat (nat_of_ascii a) in
  if bool_decide (48 ≤ n ≤ 57)%Z then Some (n - 48)%Z else None.

Fixpoint parse_digits (acc : Z) (s : string) : option Z :=
  match s with
  | EmptyString => Some acc
  | String a s' => d ← digit_of a; parse_digits (10 * acc + d)%Z s'
  end.

(** [int(s)] on a string of decimal digits with an optional sign;
    [ValueError] otherwise.  (Python also accepts surrounding blanks
    and underscores between digits; such names are outside the model.) *)
Definition py_int (s : string) : option Z :=
  match s with
  | EmptyString => None
  | String "-" EmptyString | String "+" EmptyString => None
  | String "-" s' => Z.opp <$> parse_digits 0 s'
  | String "+" s' => parse_digits 0 s'
  | _ => parse_digits 0 s
  end.

(** The filter of [__init__]:
<<
    for model_name in model_list_raw:
        if model_name[-3:] == 'pth' and int(model_name[5:-4]) <= self.end_iter:
            model_list.append(model_name)
>> *)
Fixpoint scan_checkpoints (end_it : Z) (model_list_raw : list string) : option (list string) :=
  match model_list_raw with
  | [] => Some []
  | model_name :: rest =>
      if String.eqb (slice_last3 model_name) "pth" then
        n ← py_int (slice_5_to_minus4 model_name);
        model_list ← scan_checkpoints end_it rest;
        Some (if (n <=? end_it)%Z then model_name :: model_list else model_list)
      else scan_checkpoints end_it rest
  end.

(** [model_list.sort(); latest_model_name = model_list[-1]]; an empty
    list raises [IndexError]. *)
Definition latest_checkpoint (r : t) (fs : filesystem) : option string :=
  model_list_raw ← listdir (checkpoints_dir r) fs;
  model_list ← scan_checkpoints (end_iter (conf r)) model_list_raw;
  last (Dataset.sorted model_list).

(** The end of [Runner.__init__], from the comment [# Load checkpoint]
    on.  [fresh] is the runner as built so far: the configuration is
    read, the networks and the optimizer are initialised and
    [iter_step] is 0.  [checkpoint] is the fifth parameter, whose default
    [False] is the integer 0; it is tested for truth. *)
Definition init (fresh : t) (is_continue : bool) (checkpoint : Z) (fs : filesystem)
  : option t :=
  latest1 ← (if bool_decide (checkpoint ≠ 0%Z)
             then name ← latest_checkpoint fresh fs; Some (Some name)
             else Some None);
  latest2 ← (if is_continue
             then name ← latest_checkpoint fresh fs; Some (Some name)
             else Some latest1);
  match latest2 with
  | Some latest_model_name => load_checkpoint fresh latest_model_name fs
  | None => Some fresh
  end.

(** The parsed command line. *)
Record args := {
  arg_conf : string;
  arg_mode : string;
  arg_mcube_threshold : R;
  arg_is_continue : bool;
  arg_checkpoint : Z;
  arg_gpu : Z;
  arg_case : string;
}.

(** The runner the entry point builds before it dispatches on the mode:
<<
    runner = Runner(args.conf, args.mode, args.case, args.is_continue)
>>
    Four arguments are passed, so [checkpoint] keeps its default. *)
Definition main_runner (a : args) (fresh : t) (fs : filesystem) : option t :=
  init fresh (arg_is_continue a) 0%Z fs.

(** *** Small instances *)

(** The configuration of the schedule example: [warm_up_end = 100],
    [end_iter = 1100], [learning_rate_alpha = 0.05], base rate 1. *)
Definition schedule_conf : config :=
  {| end_iter := 1100; val_freq := 10; learning_rate := 1; learning_rate_alpha := 0.05;
     warm_up_end := 100; mask_weight := 0.1; patience := None |}.

Definition example_optimizer : optimizer_state :=
  {| param_groups := [ {| lr := 0.0005; params := [0; 1; 2; 3]%nat |} ]; opt_state := ∅ |}.

Definition example_runner (n : Z) : t :=
  {| conf := schedule_conf; base_exp_dir := "exp/bear"; iter_step := n;
     nerf_outside := {[ "pts_linears.0.weight" := [IZR n; 2] ]};
     sdf_network := {[ "lin0.weight" := [1; IZR n; 3] ]};
     deviation_network := {[ "variance" := [0.3] ]};
     color_network := {[ "lin0.bias" := [4] ]};
     optimizer := example_optimizer |}.

(** *** The learning-rate schedule *)

Lemma learning_factor_warm_up cfg n :
  IZR n < warm_up_end cfg → (0 ≤ n)%Z →
  learning_factor cfg n = Some (IZR n / warm_up_end cfg).
Proof.
  intros Hlt Hn. unfold learning_factor.
  destruct (Rlt_dec _ _) as [_|Hge]; [|done].
  destruct (Req_dec_T _ _) as [H0|_]; [|done].
  apply IZR_le in Hn. lra.
Qed.

Lemma learning_factor_decay cfg n :
  ¬ IZR n < warm_up_end cfg → IZR (end_iter cfg) ≠ warm_up_end cfg →
  learning_factor cfg n
  = Some ((cos (PI * ((IZR n - warm_up_end cfg) / (IZR (end_iter cfg) - warm_up_end cfg))) + 1)
          / 2 * (1 - learning_rate_alpha cfg) + learning_rate_alpha cfg).
Proof.
  intros Hge Hne. unfold learning_factor.
  destruct (Rlt_dec _ _) as [Hlt|_]; [done|].
  destruct (Req_dec_T _ _) as [H0|_]; [lra|].
  f_equal. lra.
Qed.

(** C5: the factor is [t / warm_up_end] before the end of the warm-up and
    [(cos(pi * progress) + 1) / 2 * (1 - alpha) + alpha] afterwards, with
    [progress = (t - warm_up_end) / (end_iter - warm_up_end)]; for
    [warm_up_end = 100], [end_iter = 1100], [alpha = 0.05] it is 0.5 at
    [t = 50], 1 at [t = 100] and 0.05 at [t = 1100]; and every parameter
    group of the optimizer receives the rate [learning_rate * factor]. *)
Theorem update_learning_rate_schedule (r : t) :
  (0 ≤ iter_step r)%Z →
  (¬ IZR (iter_step r) < warm_up_end (conf r) →
   IZR (end_iter (conf r)) ≠ warm_up_end (conf r)) →
  ∃ f r',
    learning_factor (conf r) (iter_step r) = Some f
    ∧ f = (if Rlt_dec (IZR (iter_step r)) (warm_up_end (conf r))
           then IZR (iter_step r) / warm_up_end (conf r)
           else (cos (PI * ((IZR (iter_step r) - warm_up_end (conf r))
                            / (IZR (end_iter (conf r)) - warm_up_end (conf r)))) + 1)
                / 2 * (1 - learning_rate_alpha (conf r)) + learning_rate_alpha (conf r))
    ∧ update_learning_rate r = Some r'
    ∧ length (param_groups (optimizer r')) = length (param_groups (optimizer r))
    ∧ Forall (λ g, lr g = learning_rate (conf r) * f) (param_groups (optimizer r'))
    ∧ params <$> param_groups (optimizer r') = params <$> param_groups (optimizer r)
    ∧ learning_factor schedule_conf 50 = Some 0.5
    ∧ learning_factor schedule_conf 100 = Some 1
    ∧ learning_factor schedule_conf 1100 = Some 0.05.
Proof.
  intros Hn Hdecay.
  assert (∃ f, learning_factor (conf r) (iter_step r) = Some f
               ∧ f = (if Rlt_dec (IZR (iter_step r)) (warm_up_end (conf r))
           then IZR (iter_step r) / warm_up_end (conf r)
           else (cos (PI * ((IZR (iter_step r) - warm_up_end (conf r))
                            / (IZR (end_iter (conf r)) - warm_up_end (conf r)))) + 1)
                / 2 * (1 - learning_rate_alpha (conf r)) + learning_rate_alpha (conf r)))
    as (f & Hf & Hfeq).
  { destruct (Rlt_dec _ _) as [Hlt|Hge]; eexists; split; try reflexivity.
    - by apply learning_factor_warm_up.
    - apply learning_factor_decay; auto. }
  exists f. eexists. split; [exact Hf|]. split; [exact Hfeq|].
  unfold update_learning_rate. rewrite Hf. cbn [mbind option_bind].
  split; [reflexivity|]. cbn [optimizer param_groups]. split_and!.
  - by rewrite length_fmap.
  - apply Forall_fmap, Forall_true. done.
  - rewrite <- list_fmap_compose. apply list_fmap_ext. done.
  - rewrite learning_factor_warm_up; simpl; [f_equal; lra|lra|lia].
  - rewrite learning_factor_decay; simpl; [|lra|lra].
    replace (PI * ((100 - 100) / (1100 - 100))) with 0 by lra.
    rewrite cos_0. f_equal. lra.
  - rewrite learning_factor_decay; simpl; [|lra|lra].
    replace (PI * ((1100 - 100) / (1100 - 100))) with PI by lra.
    rewrite cos_PI. f_equal. lra.
Qed.

Lemma update_learning_rate_schedule_witness :
  ∃ f r',
    learning_factor schedule_conf 50 = Some f
    ∧ f = 0.5
    ∧ update_learning_rate (example_runner 50) = Some r'
    ∧ Forall (λ g, lr g = 1 * f) (param_groups (optimizer r')).
Proof.
  destruct (update_learning_rate_schedule (example_runner 50)) as (f & r' & Hf & Hfeq & Hr' & _ & Hall & _).
  - simpl. lia.
  - simpl. lra.
  - exists f, r'. split; [exact Hf|]. split; [|split; [exact Hr'|exact Hall]].
    rewrite Hfeq. simpl. destruct (Rlt_dec 50 100); lra.
Defined.

(** *** The normal loss *)

Lemma abs_against_zeros row :
  Tensor.map2 (λ x y, Rabs (x - y)) row (map (λ _, 0) row) = Rabs <$> row.
Proof.
  unfold Tensor.map2. induction row as [|x row IH]; simpl; [done|].
  rewrite IH. f_equal. f_equal. lra.
Qed.

Lemma l1_loss_zeros e :
  l1_loss e (zeros_like e)
  = Tensor.sum (Rabs <$> Tensor.flatten e) / INR (length (Tensor.flatten e)).
Proof.
  unfold l1_loss, zeros_like, Tensor.map2_rows, Tensor.flatten. cbv zeta.
  replace (concat (zip_with (Tensor.map2 (λ x y, Rabs (x - y))) e (map (map (λ _, 0)) e)))
    with (Rabs <$> concat e); [by rewrite length_fmap|].
  induction e as [|row e IH]; simpl; [done|].
  rewrite fmap_app, IH, abs_against_zeros. done.
Qed.

Lemma normal_error_zero_mask s g m :
  Forall (λ x, x = 0) m →
  Forall (λ x, x = 0) (Rabs <$> Tensor.flatten (normal_error s g m)).
Proof.
  unfold normal_error, Tensor.flatten. intros Hm.
  generalize (Tensor.map2_rows Rminus s g). intros d.
  revert d. induction Hm as [|mi m -> _ IH]; intros [|row d]; simpl; try by constructor.
  rewrite fmap_app. apply Forall_app. split; [|apply IH].
  rewrite <- list_fmap_compose. apply Forall_fmap, Forall_true.
  intros x. simpl. rewrite Rmult_0_r. apply Rabs_R0.
Qed.

(** C2 as the code has it: the normal loss is the sum of the absolute
    mask-weighted errors [|(rendered - truth) * normal_mask|] divided by
    the number of all entries of the batch (three per ray), not by the
    number of entries the mask selects; it is zero when every mask
    entry is zero, and zero for an empty batch. *)
Theorem normal_loss_masked_mean s g m :
  normal_loss s g m
  = (if bool_decide (0 < length (normal_error s g m))%nat
     then Tensor.sum (Rabs <$> Tensor.flatten (normal_error s g m))
          / INR (length (Tensor.flatten (normal_error s g m)))
     else 0)
  ∧ length (normal_error s g m) = Nat.min (Nat.min (length s) (length g)) (length m)
  ∧ (∀ i srow grow mi,
       s !! i = Some srow → g !! i = Some grow → m !! i = Some mi →
       normal_error s g m !! i = Some (zip_with (λ x y, (x - y) * mi) srow grow))
  ∧ (Forall (λ row, length row = 3%nat) (normal_error s g m) →
     length (Tensor.flatten (normal_error s g m)) = (3 * length (normal_error s g m))%nat)
  ∧ (Forall (λ x, x = 0) m → normal_loss s g m = 0).
Proof.
  split_and!.
  - unfold normal_loss. cbv zeta. case_bool_decide; [apply l1_loss_zeros|lra].
  - unfold normal_error, Tensor.map2_rows. by rewrite !length_zip_with.
  - intros i srow grow mi Hs Hg Hm. unfold normal_error, Tensor.map2_rows, Tensor.map2.
    rewrite !lookup_zip_with, Hs, Hg, Hm. simpl. f_equal.
    clear. revert grow. induction srow as [|x srow IH]; intros [|y grow]; simpl; try done.
    f_equal. apply IH.
  - unfold Tensor.flatten. induction 1 as [|row e Hrow _ IH]; simpl; [done|].
    rewrite length_app, IH, Hrow. lia.
  - intros Hm. unfold normal_loss. cbv zeta. case_bool_decide; [|lra].
    rewrite l1_loss_zeros, Tensor.sum_all_zero by by apply normal_error_zero_mask.
    unfold Rdiv. apply Rmult_0_l.
Qed.

(** C2 as the specification states it fails: with two rays of which the
    mask selects the first, the code divides the error by six entries,
    the restricted mean by three. *)
Lemma normal_loss_is_not_restricted_mae :
  normal_loss [[1; 0; 0]; [0; 0; 0]] [[0; 0; 0]; [0; 0; 0]] [1; 0]
  ≠ restricted_mae [[1; 0; 0]; [0; 0; 0]] [[0; 0; 0]; [0; 0; 0]] [1; 0].
Proof.
  assert (normal_loss [[1; 0; 0]; [0; 0; 0]] [[0; 0; 0]; [0; 0; 0]] [1; 0] = 1 / 6) as ->.
  { unfold normal_loss. cbv zeta. rewrite l1_loss_zeros. simpl.
    rewrite !Rmult_0_r, !Rmult_1_r, !Rminus_0_r, Rabs_R0, Rabs_R1. lra. }
  assert (restricted_mae [[1; 0; 0]; [0; 0; 0]] [[0; 0; 0]; [0; 0; 0]] [1; 0] = 1 / 3) as ->.
  { unfold restricted_mae. simpl.
    destruct (Req_dec_T 1 0) as [?|_]; [lra|]. destruct (Req_dec_T 0 0) as [_|?]; [|lra].
    simpl. rewrite !Rminus_0_r, Rabs_R0, Rabs_R1. lra. }
  lra.
Qed.

(** *** The divisors of the mask-normalised quantities *)

Lemma binarize_mask_nonneg cfg mask batch :
  Forall (λ x, 0 <= x) (binarize_mask cfg mask batch).
Proof.
  unfold binarize_mask. destruct (Rlt_dec _ _).
  - apply Forall_fmap, Forall_true. intros x. simpl. destruct (Rlt_dec _ _); lra.
  - apply Forall_replicate. lra.
Qed.

Lemma fdiv_is_Some x y : y ≠ 0 → fdiv x y = Some (x / y).
Proof. intros Hy. unfold fdiv. by destruct (Req_dec_T y 0). Qed.

Lemma sum_zero_mask n : foldr Z.add 0%Z (replicate n 0%Z) = 0%Z.
Proof. induction n as [|n IH]; simpl; [done|]. by rewrite IH. Qed.

(** C3 as the code has it: the divisors of [train] and of [evaluate]
    both carry the additive [1e-5], so their quotients are defined for
    every mask; the divisor of the PSNR in [validate_image] carries
    none, and is zero for an image without a valid mask pixel. *)
Theorem mask_divisor_guards cfg mask batch sq_err abs_err n :
  train_mask_sum (binarize_mask cfg mask batch)
  = Tensor.sum (binarize_mask cfg mask batch) + 1e-5
  ∧ 1e-5 <= train_mask_sum (binarize_mask cfg mask batch)
  ∧ is_Some (train_color_loss abs_err (binarize_mask cfg mask batch))
  ∧ is_Some (train_psnr_mse sq_err (binarize_mask cfg mask batch))
  ∧ evaluate_mask_sum (binarize_mask cfg mask batch)
    = Tensor.sum (binarize_mask cfg mask batch) + 1e-5
  ∧ is_Some (evaluate_psnr_mse sq_err (binarize_mask cfg mask batch))
  ∧ validate_image_psnr_mse sq_err (replicate n 0%Z) = None.
Proof.
  pose proof (Tensor.sum_nonneg _ (binarize_mask_nonneg cfg mask batch)) as Hsum.
  unfold train_color_loss, train_psnr_mse, evaluate_psnr_mse, validate_image_psnr_mse,
    train_mask_sum, evaluate_mask_sum.
  split_and!; try done; try lra.
  - rewrite fdiv_is_Some by lra. by eexists.
  - rewrite fdiv_is_Some by lra. by eexists.
  - rewrite fdiv_is_Some by lra. by eexists.
  - rewrite sum_zero_mask. unfold fdiv. destruct (Req_dec_T _ _) as [_|Hne]; [done|].
    exfalso. apply Hne. lra.
Qed.

(** C3 as the specification states it fails for [evaluate]: with no
    valid mask pixel its quotient is still defined. *)
Lemma evaluate_divisor_is_guarded :
  evaluate_mask_sum (binarize_mask schedule_conf [0; 0] 2) * 3.0 ≠ 0
  ∧ evaluate_psnr_mse 1 (binarize_mask schedule_conf [0; 0] 2) ≠ None.
Proof.
  pose proof (Tensor.sum_nonneg _ (binarize_mask_nonneg schedule_conf [0; 0] 2)) as Hsum.
  assert (evaluate_mask_sum (binarize_mask schedule_conf [0; 0] 2) * 3.0 ≠ 0) as Hne.
  { unfold evaluate_mask_sum. lra. }
  split; [exact Hne|]. unfold evaluate_psnr_mse. by rewrite fdiv_is_Some.
Qed.

(** *** Checkpoints *)

Lemma load_state_dict_same current sd :
  length <$> current = length <$> sd → load_state_dict current sd = Some sd.
Proof. intros Heq. unfold load_state_dict. by rewrite bool_decide_eq_true_2. Qed.

Lemma optimizer_load_state_dict_same current sd :
  (length ∘ params) <$> param_groups current = (length ∘ params) <$> param_groups sd →
  optimizer_load_state_dict current sd = Some sd.
Proof. intros Heq. unfold optimizer_load_state_dict. by rewrite bool_decide_eq_true_2. Qed.

Lemma torch_load_save c dir name fs :
  torch_load dir name (torch_save c dir name fs) = Some c.
Proof.
  unfold torch_load, torch_save. rewrite lookup_insert_eq. cbn [mbind option_bind].
  by rewrite lookup_insert_eq.
Qed.

Lemma length_string_app s1 s2 :
  String.length (s1 +:+ s2) = (String.length s1 + String.length s2)%nat.
Proof.
  induction s1 as [|a s1 IH]; [reflexivity|].
  change (String a s1 +:+ s2) with (String a (s1 +:+ s2)). simpl. by rewrite IH.
Qed.

Lemma length_zero_fill k : String.length (String.concat "" (replicate k "0")) = k.
Proof.
  induction k as [|k IH]; [done|]. cbn [replicate String.concat].
  destruct (replicate k "0") as [|z zs] eqn:Hz.
  - destruct k; [done|discriminate].
  - rewrite <- Hz in *. change ("0" ++ "" ++ String.concat "" (replicate k "0"))%string
      with (String "0" (String.concat "" (replicate k "0"))).
    simpl. by rewrite IH.
Qed.

Lemma length_format_0_gt_6d n :
  String.length (format_0_gt_6d n) = Nat.max 6 (String.length (pretty n)).
Proof.
  unfold format_0_gt_6d. cbv zeta.
  rewrite length_string_app, length_zero_fill. lia.
Qed.

(** C7: [load_checkpoint] on the file [save_checkpoint] wrote restores
    the parameters of the four networks, the state of the optimizer and
    the iteration counter into any runner of the same architecture
    (freshly built or not), and the file written at iteration [n] is
    [ckpt_<n>.pth] with [n] in decimal, filled with zeros on the left to
    six characters. *)
Theorem checkpoint_round_trip r r' fs :
  same_architecture r r' →
  ∃ r'' entries,
    load_checkpoint r' (checkpoint_name (iter_step r)) (save_checkpoint r fs) = Some r''
    ∧ nerf_outside r'' = nerf_outside r
    ∧ sdf_network r'' = sdf_network r
    ∧ deviation_network r'' = deviation_network r
    ∧ color_network r'' = color_network r
    ∧ optimizer r'' = optimizer r
    ∧ iter_step r'' = iter_step r
    ∧ save_checkpoint r fs !! checkpoints_dir r = Some entries
    ∧ dom entries = {[ checkpoint_name (iter_step r) ]} ∪ dom (default ∅ (fs !! checkpoints_dir r))
    ∧ checkpoint_name (iter_step r) = "ckpt_" +:+ format_0_gt_6d (iter_step r) +:+ ".pth"
    ∧ format_0_gt_6d (iter_step r)
      = String.concat "" (replicate (6 - String.length (pretty (iter_step r))) "0")
        +:+ pretty (iter_step r)
    ∧ String.length (format_0_gt_6d (iter_step r))
      = Nat.max 6 (String.length (pretty (iter_step r)))
    ∧ checkpoint_name 0 = "ckpt_000000.pth"
    ∧ checkpoint_name 1500 = "ckpt_001500.pth"
    ∧ checkpoint_name 300000 = "ckpt_300000.pth".
Proof.
  intros (Hdir & Hn & Hs & Hd & Hc & Ho).
  unfold load_checkpoint, save_checkpoint, checkpoints_dir. rewrite <- Hdir.
  rewrite torch_load_save. cbn [mbind option_bind ck_nerf ck_sdf_network_fine
    ck_variance_network_fine ck_color_network_fine ck_optimizer ck_iter_step].
  rewrite !load_state_dict_same by done.
  cbn [mbind option_bind]. rewrite optimizer_load_state_dict_same by done.
  cbn [mbind option_bind]. eexists _, _. split; [reflexivity|].
  cbn [nerf_outside sdf_network deviation_network color_network optimizer iter_step].
  split_and!; try reflexivity.
  - unfold torch_save. apply lookup_insert_eq.
  - rewrite dom_insert_L. f_equal. unfold makedirs.
    destruct (fs !! _) as [es|] eqn:Hes; [by rewrite Hes|]. by rewrite lookup_insert_eq.
  - apply length_format_0_gt_6d.
Qed.

Lemma checkpoint_round_trip_witness :
  ∃ r'',
    load_checkpoint (example_runner 0) "ckpt_001500.pth" (save_checkpoint (example_runner 1500) ∅)
    = Some r''
    ∧ nerf_outside r'' = nerf_outside (example_runner 1500)
    ∧ optimizer r'' = optimizer (example_runner 1500)
    ∧ iter_step r'' = 1500%Z.
Proof.
  destruct (checkpoint_round_trip (example_runner 1500) (example_runner 0) ∅)
    as (r'' & entries & Hload & Hn & _ & _ & _ & Ho & Hi & _).
  - unfold same_architecture, example_runner. cbn.
    rewrite !map_fmap_singleton. done.
  - exists r''. done.
Defined.

(** *** Construction from the command line *)

(** [--checkpoint 5] without [--is_continue]. *)
Definition example_args : args :=
  {| arg_conf := "./confs/base.conf"; arg_mode := "train"; arg_mcube_threshold := 0;
     arg_is_continue := false; arg_checkpoint := 5; arg_gpu := 0; arg_case := "bear" |}.

(** An experiment directory in which iteration 5 was saved. *)
Definition example_fs : filesystem := save_checkpoint (example_runner 5) ∅.

Lemma init_without_flags fresh fs : init fresh false 0 fs = Some fresh.
Proof. reflexivity. Qed.

Lemma main_runner_not_continue a fresh fs :
  arg_is_continue a = false → main_runner a fresh fs = Some fresh.
Proof. intros Hc. unfold main_runner. rewrite Hc. apply init_without_flags. Qed.

Lemma example_latest_checkpoint :
  latest_checkpoint (example_runner 0) example_fs = Some "ckpt_000005.pth".
Proof. vm_compute. reflexivity. Qed.

(** C1 at [--checkpoint 5] without [--is_continue], with the checkpoint
    of iteration 5 on disk: the entry point builds the runner without
    the flag, so nothing is scanned or restored and the counter stays
    0; the constructor given the flag would restore iteration 5. *)
Theorem main_ignores_checkpoint_flag :
  arg_checkpoint example_args ≠ 0%Z
  ∧ main_runner example_args (example_runner 0) example_fs = Some (example_runner 0)
  ∧ iter_step (example_runner 0) = 0%Z
  ∧ ∃ r, init (example_runner 0) false (arg_checkpoint example_args) example_fs = Some r
         ∧ iter_step r = 5%Z
         ∧ nerf_outside r = nerf_outside (example_runner 5)
         ∧ sdf_network r = sdf_network (example_runner 5)
         ∧ r ≠ example_runner 0.
Proof.
  split; [done|]. split; [by apply main_runner_not_continue|]. split; [done|].
  assert (load_checkpoint (example_runner 0) "ckpt_000005.pth" example_fs
          = Some (example_runner 5)) as Hload.
  { unfold load_checkpoint, example_fs, save_checkpoint.
    change (checkpoints_dir (example_runner 0)) with (checkpoints_dir (example_runner 5)).
    change "ckpt_000005.pth" with (checkpoint_name (iter_step (example_runner 5))).
    rewrite torch_load_save.
    cbn [mbind option_bind ck_nerf ck_sdf_network_fine
      ck_variance_network_fine ck_color_network_fine ck_optimizer ck_iter_step].
    rewrite !load_state_dict_same, optimizer_load_state_dict_same; [done..|];
      cbn; by rewrite !map_fmap_singleton. }
  exists (example_runner 5). split; [|by split_and!].
  unfold init. cbn [arg_checkpoint example_args].
  rewrite bool_decide_eq_true_2 by done.
  rewrite example_latest_checkpoint. exact Hload.
Qed.

(** *** Early stopping *)

(** The iteration of the [j]-th validation check of a run that starts
    with the counter at [t0]: the [j]-th multiple of [val_freq] above
    [t0]. *)
Definition check_iter (cfg : config) (t0 : Z) (j : nat) : Z :=
  ((t0 `div` val_freq cfg + Z.of_nat j) * val_freq cfg)%Z.

Definition set_iter (s : train_state) (n : Z) : train_state :=
  {| ts_iter_step := n; best_val_metric := best_val_metric s;
     best_val_iter := best_val_iter s; patience_counter := patience_counter s;
     early_stop := early_stop s; losses_val := losses_val s; psnrs_val := psnrs_val s |}.

Section TrainFacts.

Variable cfg : config.
Variables loss_at psnr_at : Z → R.
Variable t0 : Z.

Local Abbreviation loop := (train_loop cfg loss_at psnr_at).
Local Abbreviation c := (check_iter cfg t0).

(** The state right after check [k + i], when check [k] was the last to
    improve. *)
Definition after_check (k i : nat) (stop : bool) : train_state :=
  {| ts_iter_step := c (k + i); best_val_metric := Some (loss_at (c k));
     best_val_iter := c k; patience_counter := Some (Z.of_nat i);
     early_stop := stop;
     losses_val := (loss_at ∘ c) <$> seq 1 (k + i);
     psnrs_val := (psnr_at ∘ c) <$> seq 1 (k + i) |}.

Definition start_state : train_state :=
  {| ts_iter_step := t0; best_val_metric := None; best_val_iter := 0%Z;
     patience_counter := None; early_stop := false; losses_val := [];
     psnrs_val := [] |}.

Hypothesis val_freq_pos : (0 < val_freq cfg)%Z.

Lemma train_body_no_check s :
  early_stop s = false → ((ts_iter_step s + 1) `mod` val_freq cfg ≠ 0)%Z →
  train_body cfg loss_at psnr_at s = Some (set_iter s (ts_iter_step s + 1), Continue).
Proof.
  intros He Hm. unfold train_body. rewrite He. cbn [ts_iter_step].
  rewrite (proj2 (Z.eqb_neq _ _)) by lia. rewrite (proj2 (Z.eqb_neq _ _) Hm).
  unfold set_iter. by rewrite He.
Qed.

Lemma train_body_check s :
  early_stop s = false → ((ts_iter_step s + 1) `mod` val_freq cfg = 0)%Z →
  train_body cfg loss_at psnr_at s
  = validation_check cfg loss_at psnr_at (set_iter s (ts_iter_step s + 1)).
Proof.
  intros He Hm. unfold train_body. rewrite He. cbn [ts_iter_step].
  rewrite (proj2 (Z.eqb_neq _ _)) by lia. rewrite (proj2 (Z.eqb_eq _ _) Hm).
  unfold set_iter. by rewrite He.
Qed.

Lemma set_iter_set_iter s n m : set_iter (set_iter s n) m = set_iter s m.
Proof. reflexivity. Qed.

(** Rounds that reach no multiple of [val_freq] only count. *)
Lemma train_loop_skip d : ∀ s rounds,
  early_stop s = false →
  (∀ j, (1 ≤ j ≤ Z.of_nat d)%Z → ((ts_iter_step s + j) `mod` val_freq cfg ≠ 0)%Z) →
  loop (d + rounds) s = loop rounds (set_iter s (ts_iter_step s + Z.of_nat d)).
Proof.
  induction d as [|d IH]; intros s rounds He Hno.
  - cbn [Nat.add]. f_equal. destruct s. unfold set_iter. cbn. f_equal. lia.
  - cbn [Nat.add train_loop]. rewrite train_body_no_check; [|done|apply Hno; lia].
    rewrite IH; [|done|].
    + rewrite set_iter_set_iter. do 2 f_equal. cbn [set_iter ts_iter_step]. lia.
    + intros j Hj. cbn [set_iter ts_iter_step].
      replace (ts_iter_step s + 1 + j)%Z with (ts_iter_step s + (j + 1))%Z by lia.
      apply Hno. lia.
Qed.

(** From any state, the rounds up to the next multiple of [val_freq]
    end in its validation check. *)
Lemma train_loop_period s rounds :
  early_stop s = false →
  loop (Z.to_nat (val_freq cfg - ts_iter_step s `mod` val_freq cfg) + rounds) s
  = match validation_check cfg loss_at psnr_at
            (set_iter s ((ts_iter_step s `div` val_freq cfg + 1) * val_freq cfg)) with
    | None => None
    | Some (s', Break) => Some s'
    | Some (s', Continue) => loop rounds s'
    end.
Proof.
  intros He.
  pose proof (Z.mod_pos_bound (ts_iter_step s) _ val_freq_pos) as Hr.
  pose proof (Z.div_mod (ts_iter_step s) (val_freq cfg)) as Hqr.
  set (d := Z.to_nat (val_freq cfg - ts_iter_step s `mod` val_freq cfg - 1)).
  replace (Z.to_nat (val_freq cfg - ts_iter_step s `mod` val_freq cfg) + rounds)%nat
    with (d + S rounds)%nat by lia.
  rewrite train_loop_skip; [|done|].
  - cbn [train_loop]. rewrite train_body_check; [|done|].
    + rewrite set_iter_set_iter. cbn [set_iter ts_iter_step].
      replace (ts_iter_step s + Z.of_nat d + 1)%Z
        with ((ts_iter_step s `div` val_freq cfg + 1) * val_freq cfg)%Z by lia.
      reflexivity.
    + cbn [set_iter ts_iter_step].
      replace (ts_iter_step s + Z.of_nat d + 1)%Z
        with ((ts_iter_step s `div` val_freq cfg + 1) * val_freq cfg)%Z by lia.
      apply Z.mod_mul. lia.
  - intros j Hj.
    replace (ts_iter_step s + j)%Z
      with ((ts_iter_step s `mod` val_freq cfg + j)
            + (ts_iter_step s `div` val_freq cfg) * val_freq cfg)%Z by lia.
    rewrite Z.mod_add by lia. rewrite Z.mod_small; lia.
Qed.

Lemma check_iter_step j : (c (S j) = c j + val_freq cfg)%Z.
Proof. unfold check_iter. lia. Qed.

Lemma check_iter_mod j : (c j `mod` val_freq cfg = 0)%Z.
Proof. unfold check_iter. apply Z.mod_mul. lia. Qed.

Lemma check_iter_div j : (c j `div` val_freq cfg = t0 `div` val_freq cfg + Z.of_nat j)%Z.
Proof. unfold check_iter. apply Z.div_mul. lia. Qed.

Lemma check_iter_next j :
  ((ts_iter_step (after_check j 0 false) `div` val_freq cfg + 1) * val_freq cfg = c (S j))%Z.
Proof.
  cbn [after_check ts_iter_step]. rewrite Nat.add_0_r, check_iter_div.
  unfold check_iter. lia.
Qed.

Lemma seq_snoc_fmap {A} (f : nat → A) n : (f <$> seq 1 n) ++ [f (S n)] = f <$> seq 1 (S n).
Proof. by rewrite seq_S, fmap_app. Qed.

Lemma check_iter_above j : (t0 < c (S j))%Z.
Proof.
  pose proof (Z.mod_pos_bound t0 _ val_freq_pos) as Hr.
  pose proof (Z.div_mod t0 (val_freq cfg)) as Hqr.
  unfold check_iter. nia.
Qed.

Lemma first_check rounds :
  loop (Z.to_nat (c 1 - t0) + rounds) start_state = loop rounds (after_check 1 0 false).
Proof.
  pose proof (Z.div_mod t0 (val_freq cfg)) as Hqr.
  replace (c 1 - t0)%Z with (val_freq cfg - ts_iter_step start_state `mod` val_freq cfg)%Z
    by (unfold check_iter; cbn [start_state ts_iter_step]; lia).
  rewrite train_loop_period by done. reflexivity.
Qed.

(** One period of [val_freq] rounds after a check ends in the next check. *)
Lemma period_from_check k i rounds :
  loop (Z.to_nat (val_freq cfg) + rounds) (after_check k i false)
  = match validation_check cfg loss_at psnr_at
            (set_iter (after_check k i false) (c (S (k + i)))) with
    | None => None
    | Some (s', Break) => Some s'
    | Some (s', Continue) => loop rounds s'
    end.
Proof.
  replace (val_freq cfg)
    with (val_freq cfg - ts_iter_step (after_check k i false) `mod` val_freq cfg)%Z at 1
    by (cbn [after_check ts_iter_step]; rewrite check_iter_mod; lia).
  rewrite train_loop_period by done.
  cbn [after_check ts_iter_step]. rewrite check_iter_div.
  replace ((t0 `div` val_freq cfg + Z.of_nat (k + i) + 1) * val_freq cfg)%Z
    with (c (S (k + i))) by (unfold check_iter; lia).
  reflexivity.
Qed.

Lemma improve_step j rounds :
  loss_at (c (S j)) < loss_at (c j) →
  loop (Z.to_nat (val_freq cfg) + rounds) (after_check j 0 false)
  = loop rounds (after_check (S j) 0 false).
Proof.
  intros Hlt. rewrite period_from_check. rewrite Nat.add_0_r.
  unfold validation_check. cbn [set_iter after_check ts_iter_step best_val_metric
    best_val_iter patience_counter early_stop losses_val psnrs_val].
  destruct (Rlt_dec _ _) as [_|Hn]; [|done].
  rewrite !Nat.add_0_r.
  rewrite (seq_snoc_fmap (loss_at ∘ c)), (seq_snoc_fmap (psnr_at ∘ c)).
  unfold after_check. rewrite !Nat.add_0_r. reflexivity.
Qed.

Lemma plateau_step k i rounds :
  ¬ loss_at (c (S (k + i))) < loss_at (c k) →
  loop (Z.to_nat (val_freq cfg) + rounds) (after_check k i false)
  = if (get_patience cfg <=? Z.of_nat (S i))%Z
    then Some (after_check k (S i) true)
    else loop rounds (after_check k (S i) false).
Proof.
  intros Hge. rewrite period_from_check.
  unfold validation_check. cbn [set_iter after_check ts_iter_step best_val_metric
    best_val_iter patience_counter early_stop losses_val psnrs_val mbind option_bind].
  destruct (Rlt_dec _ _) as [Hlt|_]; [done|].
  replace (Z.of_nat i + 1)%Z with (Z.of_nat (S i)) by lia.
  rewrite (seq_snoc_fmap (loss_at ∘ c)), (seq_snoc_fmap (psnr_at ∘ c)).
  unfold after_check. replace (k + S i)%nat with (S (k + i)) by lia.
  by destruct (_ <=? _)%Z.
Qed.

Lemma reach_improving k :
  (∀ j, (1 ≤ j < k)%nat → loss_at (c (S j)) < loss_at (c j)) →
  ∀ j, (1 ≤ j ≤ k)%nat → ∀ rounds,
    loop (Z.to_nat (c j - t0) + rounds) start_state = loop rounds (after_check j 0 false).
Proof.
  intros Himp j. induction j as [|j IH]; intros Hj rounds; [lia|].
  destruct (decide (j = 0%nat)) as [->|Hj0]; [apply first_check|].
  pose proof (check_iter_above (j - 1)) as Habove.
  replace (S (j - 1)) with j in Habove by lia.
  replace (Z.to_nat (c (S j) - t0) + rounds)%nat
    with (Z.to_nat (c j - t0) + (Z.to_nat (val_freq cfg) + rounds))%nat
    by (rewrite check_iter_step; lia).
  rewrite IH by lia. apply improve_step, Himp. lia.
Qed.

Lemma reach_plateau k :
  (1 ≤ k)%nat →
  (∀ j, (1 ≤ j < k)%nat → loss_at (c (S j)) < loss_at (c j)) →
  ∀ i, (Z.of_nat i < get_patience cfg)%Z →
    (∀ j, (k < j ≤ k + i)%nat → ¬ loss_at (c j) < loss_at (c k)) →
    ∀ rounds,
      loop (Z.to_nat (c (k + i) - t0) + rounds) start_state
      = loop rounds (after_check k i false).
Proof.
  intros Hk Himp i. induction i as [|i IH]; intros Hi Hflat rounds.
  - rewrite Nat.add_0_r. apply (reach_improving k Himp). lia.
  - pose proof (check_iter_above (k + i - 1)) as Habove.
    replace (S (k + i - 1)) with (k + i)%nat in Habove by lia.
    replace (Z.to_nat (c (k + S i) - t0) + rounds)%nat
      with (Z.to_nat (c (k + i) - t0) + (Z.to_nat (val_freq cfg) + rounds))%nat
      by (replace (k + S i)%nat with (S (k + i)) by lia; rewrite check_iter_step; lia).
    rewrite IH; [|lia|intros j Hj; apply Hflat; lia].
    rewrite plateau_step by (apply Hflat; lia).
    rewrite (proj2 (Z.leb_gt _ _)) by lia. reflexivity.
Qed.

(** C4: when the tracked loss strictly improves at the first [k]
    validation checks and at none of the following ones, the loop
    breaks at the check number [k + patience], that is [patience]
    checks after the last improvement, with the early-stop flag set;
    [best_val_iter] is the iteration of check [k] and [best_val_metric]
    its loss.  The decision reads [loss_at] only: the PSNR values are
    recorded in [psnrs_val] and never compared. *)
Theorem early_stopping_after_patience k :
  (1 ≤ get_patience cfg)%Z →
  (1 ≤ k)%nat →
  (∀ j, (1 ≤ j < k)%nat → loss_at (c (S j)) < loss_at (c j)) →
  (∀ j, (k < j ≤ k + Z.to_nat (get_patience cfg))%nat → ¬ loss_at (c j) < loss_at (c k)) →
  (c (k + Z.to_nat (get_patience cfg)) ≤ end_iter cfg)%Z →
  ∃ s,
    train cfg loss_at psnr_at t0 = Some s
    ∧ early_stop s = true
    ∧ ts_iter_step s = c (k + Z.to_nat (get_patience cfg))
    ∧ best_val_iter s = c k
    ∧ best_val_metric s = Some (loss_at (c k))
    ∧ patience_counter s = Some (get_patience cfg)
    ∧ losses_val s = (loss_at ∘ c) <$> seq 1 (k + Z.to_nat (get_patience cfg))
    ∧ psnrs_val s = (psnr_at ∘ c) <$> seq 1 (k + Z.to_nat (get_patience cfg)).
Proof.
  intros HP Hk Himp Hflat Hend.
  set (P := Z.to_nat (get_patience cfg)) in *.
  exists (after_check k P true). split.
  - unfold train. cbv zeta. fold start_state.
    destruct P as [|p] eqn:HPp; [lia|].
    pose proof (check_iter_above (k + p - 1)) as Habove.
    replace (S (k + p - 1)) with (k + p)%nat in Habove by lia.
    assert (c (k + S p) = c (k + p) + val_freq cfg)%Z as Hstep.
    { replace (k + S p)%nat with (S (k + p)) by lia. apply check_iter_step. }
    replace (Z.to_nat (end_iter cfg - t0))
      with (Z.to_nat (c (k + p) - t0)
            + (Z.to_nat (val_freq cfg) + Z.to_nat (end_iter cfg - c (k + S p))))%nat by lia.
    rewrite (reach_plateau k Hk Himp p); [|lia|intros j Hj; apply Hflat; lia].
    rewrite plateau_step by (apply Hflat; lia).
    rewrite (proj2 (Z.leb_le _ _)) by lia. reflexivity.
  - cbn [after_check early_stop ts_iter_step best_val_iter best_val_metric
      patience_counter losses_val psnrs_val].
    split_and!; try done. f_equal. lia.
Qed.

End TrainFacts.

(** A run with the default patience: the loss is 2 at the first check
    (iteration 10), 1 from the second check (iteration 20) on. *)
Definition example_loss (n : Z) : R := if (n <=? 10)%Z then 2 else 1.

Lemma early_stopping_after_patience_witness :
  ∃ s, train schedule_conf example_loss (λ _, 30) 0 = Some s
       ∧ early_stop s = true
       ∧ ts_iter_step s = 120%Z
       ∧ best_val_iter s = 20%Z
       ∧ best_val_metric s = Some 1.
Proof.
  destruct (early_stopping_after_patience schedule_conf example_loss (λ _, 30) 0%Z
              eq_refl 2)
    as (s & Hs & Hstop & Hiter & Hbest & Hmetric & _).
  - discriminate.
  - lia.
  - intros j Hj. assert (j = 1%nat) as -> by lia.
    unfold example_loss, check_iter. simpl. lra.
  - intros j Hj. unfold example_loss, check_iter. simpl.
    destruct (Z.leb_spec ((0 `div` 10 + Z.of_nat j) * 10) 10) as [Hle|_]; [|lra].
    change (0 `div` 10)%Z with 0%Z in Hle. lia.
  - done.
  - exists s. split; [exact Hs|]. split; [exact Hstop|].
    split; [exact Hiter|]. split; [exact Hbest|]. exact Hmetric.
Defined.

(** ** Further properties of the runner *)

(** *** The cosine-anneal ratio *)

(** [get_cos_anneal_ratio]:
<<
    if self.anneal_end == 0.0:
        return 1.0
    else:
        return np.min([1.0, self.iter_step / self.anneal_end])
>>
    [anneal_end] is [conf.get_float('train.anneal_end', default=0.0)]. *)
Definition get_cos_anneal_ratio (anneal_end : R) (iter_step : Z) : R :=
  if Req_dec_T anneal_end 0.0 then 1.0
  else Rmin 1.0 (IZR iter_step / anneal_end).

(** X1: for a positive [anneal_end] the ratio grows linearly from 0,
    stays within [0, 1], never decreases with the iteration and is
    clamped to 1 from iteration [anneal_end] on. *)
Theorem cos_anneal_ratio_ramp anneal_end (n n' : Z) :
  0 < anneal_end → (0 ≤ n ≤ n')%Z →
  0 <= get_cos_anneal_ratio anneal_end n <= 1
  ∧ get_cos_anneal_ratio anneal_end n <= get_cos_anneal_ratio anneal_end n'
  ∧ (IZR n <= anneal_end → get_cos_anneal_ratio anneal_end n = IZR n / anneal_end)
  ∧ (anneal_end <= IZR n → get_cos_anneal_ratio anneal_end n = 1)
  ∧ get_cos_anneal_ratio anneal_end 0 = 0.
Proof.
  intros Hpos [Hn Hn']. apply IZR_le in Hn as Hn0, Hn' as Hnn'.
  assert (∀ m : Z, get_cos_anneal_ratio anneal_end m = Rmin 1 (IZR m / anneal_end)) as Hdef.
  { intros m. unfold get_cos_anneal_ratio. destruct (Req_dec_T _ _); [lra|]. f_equal. lra. }
  assert (∀ x, 0 <= x → 0 <= x / anneal_end) as Hdiv.
  { intros x Hx. apply Rmult_le_pos; [done|]. left. by apply Rinv_0_lt_compat. }
  assert (IZR n / anneal_end <= IZR n' / anneal_end) as Hmono.
  { apply Rmult_le_compat_r; [|done]. left. by apply Rinv_0_lt_compat. }
  rewrite !Hdef. split_and!.
  - apply Rmin_glb; [lra|]. apply Hdiv. lra.
  - apply Rmin_l.
  - apply Rle_min_compat_l, Hmono.
  - intros Hle. apply Rmin_right. apply (Rmult_le_reg_r anneal_end); [done|].
    unfold Rdiv. rewrite Rmult_assoc, Rinv_l by lra. lra.
  - intros Hge. apply Rmin_left. apply (Rmult_le_reg_r anneal_end); [done|].
    unfold Rdiv. rewrite Rmult_assoc, Rinv_l by lra. lra.
  - rewrite Rmin_right; unfold Rdiv; rewrite Rmult_0_l; lra.
Qed.

Lemma cos_anneal_ratio_ramp_witness :
  get_cos_anneal_ratio 1000 500 = 0.5 ∧ get_cos_anneal_ratio 1000 2000 = 1.
Proof.
  destruct (cos_anneal_ratio_ramp 1000 500 2000) as (_ & _ & Hlin & _); [lra|lia|].
  destruct (cos_anneal_ratio_ramp 1000 2000 2000) as (_ & _ & _ & Hone & _); [lra|lia|].
  split; [rewrite Hlin; lra|apply Hone; lra].
Defined.

(** *** Range and failure of the learning-rate schedule *)

(** X2: wherever the factor of the schedule is defined (from iteration
    0 on, with a decay floor [alpha] in [0, 1]) it lies in [0, 1], and
    after the warm-up it is never below [alpha]; so the rate set by
    [update_learning_rate] is never above the base rate. *)
Theorem learning_factor_range (r r' : t) :
  (0 ≤ iter_step r)%Z →
  0 <= learning_rate_alpha (conf r) <= 1 →
  0 <= learning_rate (conf r) →
  update_learning_rate r = Some r' →
  ∃ f, learning_factor (conf r) (iter_step r) = Some f
       ∧ 0 <= f <= 1
       ∧ (¬ IZR (iter_step r) < warm_up_end (conf r) → learning_rate_alpha (conf r) <= f)
       ∧ Forall (λ g, 0 <= lr g <= learning_rate (conf r)) (param_groups (optimizer r')).
Proof.
  intros Hn Ha Hlr Hup. apply IZR_le in Hn. unfold update_learning_rate in Hup.
  destruct (learning_factor (conf r) (iter_step r)) as [f|] eqn:Hf; [|done].
  cbn [mbind option_bind] in Hup. injection Hup as <-. exists f. split; [done|].
  assert (0 <= f <= 1
          ∧ (¬ IZR (iter_step r) < warm_up_end (conf r) → learning_rate_alpha (conf r) <= f))
    as [Hrange Hfloor].
  { unfold learning_factor in Hf. destruct (Rlt_dec _ _) as [Hlt|Hge].
    - destruct (Req_dec_T _ _); [done|]. injection Hf as <-. split; [|done].
      assert (0 < warm_up_end (conf r)) as Hw by lra.
      assert (0 < / warm_up_end (conf r)) as Hi by by apply Rinv_0_lt_compat.
      split; [by apply Rmult_le_pos; [|left]|].
      apply (Rmult_le_reg_r (warm_up_end (conf r))); [done|].
      unfold Rdiv. rewrite Rmult_assoc, Rinv_l by lra. lra.
    - destruct (Req_dec_T _ _); [done|]. injection Hf as <-.
      match goal with |- context [cos ?x] => pose proof (COS_bound x) as [Hc1 Hc2] end.
      split; [split|intros _]; nra. }
  split_and!; [tauto..|]. cbn [optimizer param_groups].
  apply Forall_fmap, Forall_true. intros g. cbn. nra.
Qed.

Lemma learning_factor_range_witness :
  ∃ r' f, update_learning_rate (example_runner 600) = Some r'
          ∧ learning_factor schedule_conf 600 = Some f ∧ 0.05 <= f <= 1.
Proof.
  destruct (update_learning_rate (example_runner 600)) as [r'|] eqn:Hup.
  - destruct (learning_factor_range (example_runner 600) r') as (f & Hf & Hr & Hfloor & _);
      [simpl; lia|simpl; lra|simpl; lra|exact Hup|].
    exists r', f. split; [done|]. split; [exact Hf|]. split; [|tauto].
    apply Hfloor. simpl. lra.
  - exfalso. unfold update_learning_rate in Hup.
    rewrite learning_factor_decay in Hup; [done|simpl; lra|simpl; lra].
Defined.

(** X3: from iteration 0 on, [update_learning_rate] fails (a division by
    zero) exactly when the warm-up is over and [end_iter] equals
    [warm_up_end]. *)
Theorem update_learning_rate_fails_iff (r : t) :
  (0 ≤ iter_step r)%Z →
  (update_learning_rate r = None
   ↔ ¬ IZR (iter_step r) < warm_up_end (conf r)
     ∧ IZR (end_iter (conf r)) = warm_up_end (conf r)).
Proof.
  intros Hn. apply IZR_le in Hn. unfold update_learning_rate, learning_factor.
  destruct (Rlt_dec _ _) as [Hlt|Hge].
  - destruct (Req_dec_T _ _); [lra|]. cbn. split; [done|tauto].
  - destruct (Req_dec_T _ _) as [Heq|Hne]; cbn.
    + split; [|done]. intros _. split; [done|lra].
    + split; [done|]. intros [_ Heq]. lra.
Qed.

Lemma update_learning_rate_fails_iff_witness :
  ∃ r, (0 ≤ iter_step r)%Z ∧ update_learning_rate r = None.
Proof.
  exists {| conf := {| end_iter := 0; val_freq := 10; learning_rate := 1;
                       learning_rate_alpha := 0.05; warm_up_end := 0;
                       mask_weight := 0.1; patience := None |};
            base_exp_dir := "exp"; iter_step := 0; nerf_outside := ∅; sdf_network := ∅;
            deviation_network := ∅; color_network := ∅; optimizer := example_optimizer |}.
  split; [simpl; lia|].
  apply update_learning_rate_fails_iff; simpl; [lia|]. split; lra.
Defined.

(** *** Invariants of the training loop *)

(** The best metric is the least recorded loss, seen at [best_val_iter];
    it is unset exactly when no validation check has run. *)
Definition best_is_min (loss_at : Z → R) (s : train_state) : Prop :=
  match best_val_metric s with
  | None => losses_val s = []
  | Some b =>
      b ∈ losses_val s ∧ Forall (λ x, b <= x) (losses_val s)
      ∧ b = loss_at (best_val_iter s)
  end.

(** The patience counter is bound exactly when a best metric is, and
    counts fewer checks than have run. *)
Definition counter_bound (s : train_state) : Prop :=
  match patience_counter s with
  | None => best_val_metric s = None
  | Some n => (0 ≤ n < Z.of_nat (length (losses_val s)))%Z ∧ is_Some (best_val_metric s)
  end.

Definition loop_inv (loss_at : Z → R) (s : train_state) : Prop :=
  best_is_min loss_at s ∧ counter_bound s ∧ length (losses_val s) = length (psnrs_val s).

(** Closes the conjuncts of the loop invariant after one check. *)
Ltac inv_goal :=
  first
    [ done | lia | lra | congruence
    | apply list_elem_of_here
    | apply elem_of_app; first [by left | right; apply list_elem_of_here]
    | by eexists
    | intros; congruence
    | intros; by eexists
    | intros; eexists; split; [reflexivity|lia]
    | apply Forall_singleton; lra
    | apply Forall_app; split;
      [ first [done | eapply Forall_impl; [eassumption|]; cbn; intros; lra]
      | apply Forall_singleton; lra ] ].

Section TrainInvariants.

Variable cfg : config.
Variables loss_at psnr_at : Z → R.

Lemma validation_check_inv s :
  loop_inv loss_at s → early_stop s = false →
  ∃ s' fl,
    validation_check cfg loss_at psnr_at s = Some (s', fl)
    ∧ loop_inv loss_at s'
    ∧ ts_iter_step s' = ts_iter_step s
    ∧ (fl = Continue → early_stop s' = false)
    ∧ (fl = Break → early_stop s' = true)
    ∧ (early_stop s' = true →
       ∃ n, patience_counter s' = Some n ∧ (get_patience cfg ≤ n)%Z).
Proof.
  intros (Hbest & Hcount & Hlen) Hstop.
  unfold validation_check, loop_inv, best_is_min, counter_bound in *.
  destruct (best_val_metric s) as [b|] eqn:Hb.
  - destruct Hbest as (Hin & Hall & Hat).
    destruct (Rlt_dec (loss_at (ts_iter_step s)) b) as [Hlt|Hge].
    + eexists _, _. split; [reflexivity|]. cbn.
      rewrite !length_app, Hlen. cbn. split_and!; inv_goal.
    + destruct (patience_counter s) as [n|] eqn:Hn; [|done].
      destruct Hcount as [Hrange _]. cbn [mbind option_bind].
      destruct (Z.leb_spec (get_patience cfg) (n + 1)) as [Hle|Hgt].
      * eexists _, _. split; [reflexivity|]. cbn.
        rewrite !length_app, <- Hlen. cbn. split_and!; inv_goal.
      * eexists _, _. split; [reflexivity|]. cbn. rewrite ?Hstop.
        rewrite !length_app, <- Hlen. cbn. split_and!; inv_goal.
  - eexists _, _. split; [reflexivity|]. cbn.
    rewrite !length_app, <- Hlen, !Hbest. cbn. split_and!; inv_goal.
Qed.

Lemma train_loop_inv rounds : ∀ s,
  val_freq cfg ≠ 0%Z → loop_inv loss_at s → early_stop s = false →
  ∃ s',
    train_loop cfg loss_at psnr_at rounds s = Some s'
    ∧ loop_inv loss_at s'
    ∧ (ts_iter_step s ≤ ts_iter_step s' ≤ ts_iter_step s + Z.of_nat rounds)%Z
    ∧ (early_stop s' = false → ts_iter_step s' = (ts_iter_step s + Z.of_nat rounds)%Z)
    ∧ (early_stop s' = true →
       ∃ n, patience_counter s' = Some n ∧ (get_patience cfg ≤ n)%Z).
Proof.
  induction rounds as [|rounds IH]; intros s Hv Hinv Hstop.
  - exists s. cbn. split_and!; try done; try lia. congruence.
  - cbn [train_loop].
    assert (loop_inv loss_at (set_iter s (ts_iter_step s + 1))) as Hinv1 by exact Hinv.
    assert (early_stop (set_iter s (ts_iter_step s + 1)) = false) as Hstop1 by exact Hstop.
    assert (train_body cfg loss_at psnr_at s
            = if ((ts_iter_step s + 1) `mod` val_freq cfg =? 0)%Z
              then validation_check cfg loss_at psnr_at (set_iter s (ts_iter_step s + 1))
              else Some (set_iter s (ts_iter_step s + 1), Continue)) as ->.
    { unfold train_body. rewrite Hstop, (proj2 (Z.eqb_neq _ _) Hv).
      cbn [ts_iter_step]. unfold set_iter. by rewrite Hstop. }
    destruct (_ =? 0)%Z.
    + destruct (validation_check_inv _ Hinv1 Hstop1)
        as (s' & fl & -> & Hinv' & Hit & Hc & Hb & Hes).
      cbn [set_iter ts_iter_step] in Hit. destruct fl.
      * destruct (IH s' Hv Hinv' (Hc eq_refl)) as (s'' & -> & ? & ? & Hns & ?).
        exists s''. split_and!; try done; try lia. intros Hf. rewrite (Hns Hf). lia.
      * exists s'. split_and!; try done; try lia.
        intros Hf. rewrite (Hb eq_refl) in Hf. done.
    + destruct (IH _ Hv Hinv1 Hstop1) as (s'' & -> & ? & Hr & Hns & ?).
      cbn [set_iter ts_iter_step] in Hr, Hns.
      exists s''. split_and!; try done; try lia. intros Hf. rewrite (Hns Hf). lia.
Qed.

Lemma start_inv t0 :
  loop_inv loss_at
    {| ts_iter_step := t0; best_val_metric := None; best_val_iter := 0%Z;
       patience_counter := None; early_stop := false; losses_val := [];
       psnrs_val := [] |}.
Proof. done. Qed.

Lemma train_is_Some t0 :
  val_freq cfg ≠ 0%Z → is_Some (train cfg loss_at psnr_at t0).
Proof.
  intros Hv. unfold train. cbv zeta.
  destruct (train_loop_inv (Z.to_nat (end_iter cfg - t0)) _ Hv (start_inv t0) eq_refl)
    as (s & Hs & _).
  by exists s.
Qed.


(** X5: whenever [train] comes back, [best_val_metric] is the least of
    the recorded losses [losses_val] and is the loss of iteration
    [best_val_iter] (it is unset exactly when no check ran), and as
    many PSNR values as losses were recorded. *)
Theorem train_best_is_least t0 s :
  train cfg loss_at psnr_at t0 = Some s →
  best_is_min loss_at s
  ∧ (best_val_metric s = None ↔ losses_val s = [])
  ∧ length (psnrs_val s) = length (losses_val s).
Proof.
  intros Hs.
  assert (loop_inv loss_at s) as (Hbest & Hcount & Hlen).
  { destruct (decide (val_freq cfg = 0%Z)) as [H0|Hv].
    - unfold train in Hs. cbv zeta in Hs.
      destruct (Z.to_nat _) as [|n]; [injection Hs as <-; apply start_inv|].
      cbn in Hs. by rewrite (proj2 (Z.eqb_eq _ _) H0) in Hs.
    - edestruct (train_loop_inv (Z.to_nat (end_iter cfg - t0))) as (s' & Hs' & Hinv & _);
        [exact Hv|apply (start_inv t0)|reflexivity|].
      unfold train in Hs. cbv zeta in Hs. congruence. }
  split; [exact Hbest|]. split; [|done].
  unfold best_is_min in Hbest. destruct (best_val_metric s); [|done].
  destruct Hbest as (Hin & _). split; [done|]. intros Hnil. rewrite Hnil in Hin. set_solver.
Qed.


End TrainInvariants.


Lemma train_best_is_least_witness :
  ∃ s, train schedule_conf example_loss (λ _, 30) 0 = Some s
       ∧ best_is_min example_loss s.
Proof.
  destruct (train_is_Some schedule_conf example_loss (λ _, 30) 0) as [s Hs];
    [discriminate|].
  exists s. split; [exact Hs|].
  exact (proj1 (train_best_is_least schedule_conf example_loss (λ _, 30) 0 s Hs)).
Defined.

(** *** Names of checkpoint files *)

Lemma digit_of_pretty_N_char (d : N) :
  (d < 10)%N → digit_of (pretty_N_char d) = Some (Z.of_N d).
Proof.
  intros Hd.
  assert (d = 0 ∨ d = 1 ∨ d = 2 ∨ d = 3 ∨ d = 4 ∨ d = 5 ∨ d = 6 ∨ d = 7 ∨ d = 8 ∨ d = 9)%N
    as Hcases by lia.
  repeat (destruct Hcases as [->|Hcases]; [reflexivity|]). by subst.
Qed.

(** Reading back the digits [pretty] writes in front of a string. *)
Lemma parse_digits_pretty_N_go (x : N) :
  ∃ k : nat, ∀ s acc,
    parse_digits acc (pretty_N_go x s) = parse_digits (acc * 10 ^ Z.of_nat k + Z.of_N x)%Z s.
Proof.
  induction (N.lt_wf_0 x) as [x _ IH].
  destruct (decide (x = 0%N)) as [->|Hx].
  - exists 0%nat. intros s acc. rewrite pretty_N_go_0. f_equal. lia.
  - destruct (IH (x `div` 10)%N) as [k Hk]; [apply N.div_lt; lia|].
    exists (S k). intros s acc. rewrite pretty_N_go_step by lia. rewrite Hk.
    cbn [parse_digits]. rewrite digit_of_pretty_N_char by (apply N.mod_lt; lia).
    cbn [mbind option_bind]. f_equal.
    rewrite Nat2Z.inj_succ, Z.pow_succ_r by lia.
    pose proof (N.div_mod x 10) as Hdm.
    rewrite N2Z.inj_div, N2Z.inj_mod. change (Z.of_N 10) with 10%Z.
    pose proof (Z.div_mod (Z.of_N x) 10). lia.
Qed.

Lemma parse_digits_pretty (n : Z) : (0 ≤ n)%Z → parse_digits 0 (pretty n) = Some n.
Proof.
  intros Hn. destruct n as [|p|p]; [reflexivity| |lia].
  change (pretty (Z.pos p)) with (pretty_N_go (N.pos p) "").
  destruct (parse_digits_pretty_N_go (N.pos p)) as [k Hk]. rewrite Hk. cbn. f_equal.
Qed.

Lemma zero_fill_S k :
  String.concat "" (replicate (S k) "0") = String "0" (String.concat "" (replicate k "0")).
Proof. destruct k; reflexivity. Qed.

Lemma parse_digits_zero_fill k s :
  parse_digits 0 (String.concat "" (replicate k "0") +:+ s) = parse_digits 0 s.
Proof.
  induction k as [|k IH]; [reflexivity|]. rewrite zero_fill_S.
  change (String "0" ?a +:+ s) with (String "0" (a +:+ s)). cbn [parse_digits].
  change (digit_of "0") with (Some 0%Z). cbn [mbind option_bind]. exact IH.
Qed.

Lemma py_int_of_digits a s :
  is_Some (digit_of a) → py_int (String a s) = parse_digits 0 (String a s).
Proof.
  intros [d Hd]. destruct a as [[] [] [] [] [] [] [] []]; try done.
Qed.

Lemma parse_digits_head acc a s :
  is_Some (parse_digits acc (String a s)) → is_Some (digit_of a).
Proof. cbn. destruct (digit_of a); [by eexists|]. by intros [? ?]. Qed.

(** The iteration is read back from the field ['{:0>6d}'] writes. *)
Lemma py_int_format_0_gt_6d (n : Z) : (0 ≤ n)%Z → py_int (format_0_gt_6d n) = Some n.
Proof.
  intros Hn.
  assert (parse_digits 0 (format_0_gt_6d n) = Some n) as Hparse.
  { unfold format_0_gt_6d. cbv zeta. by rewrite parse_digits_zero_fill, parse_digits_pretty. }
  destruct (format_0_gt_6d n) as [|a s] eqn:Hf.
  - pose proof (length_format_0_gt_6d n) as Hlen. rewrite Hf in Hlen. cbn in Hlen. lia.
  - rewrite py_int_of_digits; [done|]. eapply parse_digits_head. rewrite Hparse. by eexists.
Qed.

Lemma substring_0_app b c : String.substring 0 (String.length b) (b +:+ c) = b.
Proof.
  induction b as [|x b IH]; [by destruct c|].
  change (String x b +:+ c) with (String x (b +:+ c)). cbn. by rewrite IH.
Qed.

Lemma substring_skip_app a n m b :
  String.substring (String.length a + n) m (a +:+ b) = String.substring n m b.
Proof.
  induction a as [|x a IH]; [reflexivity|].
  change (String x a +:+ b) with (String x (a +:+ b)). cbn. exact IH.
Qed.

Lemma slice_checkpoint_name n :
  slice_last3 (checkpoint_name n) = "pth"
  ∧ slice_5_to_minus4 (checkpoint_name n) = format_0_gt_6d n.
Proof.
  unfold slice_last3, slice_5_to_minus4, checkpoint_name.
  rewrite !length_string_app. cbn [String.length].
  split.
  - replace (5 + (String.length (format_0_gt_6d n) + 4) - 3)%nat
      with (String.length "ckpt_" + (String.length (format_0_gt_6d n) + 1))%nat by (cbn; lia).
    rewrite substring_skip_app, substring_skip_app. reflexivity.
  - replace (5 + (String.length (format_0_gt_6d n) + 4) - 4 - 5)%nat
      with (String.length (format_0_gt_6d n)) by lia.
    change 5%nat with (String.length "ckpt_" + 0)%nat.
    rewrite substring_skip_app. apply substring_0_app.
Qed.

(** *** The order of [list.sort] on names *)

Lemma compare_cons a s b t :
  String.compare (String a s) (String b t)
  = match (N_of_ascii a ?= N_of_ascii b)%N with Eq => String.compare s t | ne => ne end.
Proof. reflexivity. Qed.

Lemma compare_refl s : String.compare s s = Eq.
Proof. induction s as [|a s IH]; [done|]. by rewrite compare_cons, N.compare_refl. Qed.

Lemma str_le_cons a s b t :
  Dataset.str_le (String a s) (String b t)
  ↔ (N_of_ascii a < N_of_ascii b)%N ∨ (N_of_ascii a = N_of_ascii b ∧ Dataset.str_le s t).
Proof.
  unfold Dataset.str_le, String.leb. rewrite compare_cons.
  destruct (N.compare_spec (N_of_ascii a) (N_of_ascii b)) as [Heq|Hlt|Hgt].
  - split; [by right|]. intros [?|[_ ?]]; [lia|done].
  - split; [by left|done].
  - split; [done|]. intros [?|[? _]]; lia.
Qed.

Lemma str_le_nil_l t : Dataset.str_le "" t.
Proof. by destruct t. Qed.

Lemma str_le_nil_r s : Dataset.str_le s "" → s = "".
Proof. by destruct s. Qed.

#[local] Existing Instance Dataset.str_le_dec.

#[local] Instance str_le_trans : Transitive Dataset.str_le.
Proof.
  intros s. induction s as [|a s IH]; intros t u Hst Htu; [apply str_le_nil_l|].
  destruct t as [|b t]; [by apply str_le_nil_r in Hst|].
  destruct u as [|c u]; [by apply str_le_nil_r in Htu|].
  apply str_le_cons in Hst, Htu. apply str_le_cons.
  destruct Hst as [?|[? ?]], Htu as [?|[? ?]]; [left; lia..|].
  right. split; [congruence|]. by eapply IH.
Qed.

#[local] Instance str_le_total : Total Dataset.str_le.
Proof. intros s t. apply String.leb_total. Qed.

Lemma compare_app_l p s t : String.compare (p +:+ s) (p +:+ t) = String.compare s t.
Proof.
  induction p as [|a p IH]; [reflexivity|].
  change (String a p +:+ ?x) with (String a (p +:+ x)).
  by rewrite compare_cons, N.compare_refl.
Qed.

Lemma compare_app_r s t u :
  String.length s = String.length t →
  String.compare (s +:+ u) (t +:+ u) = String.compare s t.
Proof.
  revert t. induction s as [|a s IH]; intros [|b t] Hlen; try done.
  - apply compare_refl.
  - change (String ?x ?y +:+ u) with (String x (y +:+ u)). rewrite !compare_cons.
    rewrite IH by (cbn in Hlen; lia). done.
Qed.

(** *** Numbers and their names *)

Lemma digit_of_Some a d :
  digit_of a = Some d → d = (Z.of_N (N_of_ascii a) - 48)%Z ∧ (0 ≤ d ≤ 9)%Z.
Proof.
  unfold digit_of, nat_of_ascii. cbv zeta. rewrite N_nat_Z.
  case_bool_decide; [|done]. intros [= <-]. lia.
Qed.

Lemma parse_digits_bounds s : ∀ acc x,
  parse_digits acc s = Some x →
  (acc * 10 ^ Z.of_nat (String.length s) ≤ x < (acc + 1) * 10 ^ Z.of_nat (String.length s))%Z.
Proof.
  induction s as [|a s IH]; intros acc x Hx.
  - cbn in Hx. injection Hx as <-. cbn. lia.
  - cbn [parse_digits] in Hx. destruct (digit_of a) as [d|] eqn:Hd; [|done].
    cbn [mbind option_bind] in Hx. apply IH in Hx. apply digit_of_Some in Hd as [_ Hd].
    cbn [String.length]. rewrite Nat2Z.inj_succ, Z.pow_succ_r by lia.
    assert (0 < 10 ^ Z.of_nat (String.length s))%Z by (apply Z.pow_pos_nonneg; lia).
    nia.
Qed.

(** On digit strings of one length the order of the strings is the
    order of the numbers. *)
Lemma compare_digits s : ∀ t acc x y,
  String.length s = String.length t →
  parse_digits acc s = Some x → parse_digits acc t = Some y →
  String.compare s t = (x ?= y)%Z.
Proof.
  induction s as [|a s IH]; intros [|b t] acc x y Hlen Hx Hy; try done.
  - cbn in Hx, Hy. injection Hx as <-. injection Hy as <-. by rewrite Z.compare_refl.
  - cbn [parse_digits] in Hx, Hy.
    destruct (digit_of a) as [da|] eqn:Hda; [|done].
    destruct (digit_of b) as [db|] eqn:Hdb; [|done].
    cbn [mbind option_bind] in Hx, Hy.
    apply digit_of_Some in Hda as [Hda _], Hdb as [Hdb _].
    cbn in Hlen. injection Hlen as Hlen. rewrite compare_cons.
    destruct (N.compare_spec (N_of_ascii a) (N_of_ascii b)) as [Heq|Hlt|Hgt].
    + apply (IH t (10 * acc + da)%Z); [done..|]. replace da with db; [done|]. rewrite Hda, Hdb, Heq. done.
    + apply parse_digits_bounds in Hx, Hy. rewrite Hlen in Hx. symmetry. apply Z.compare_lt_iff.
      assert (0 < 10 ^ Z.of_nat (String.length t))%Z by (apply Z.pow_pos_nonneg; lia).
      nia.
    + apply parse_digits_bounds in Hx, Hy. rewrite Hlen in Hx. symmetry. apply Z.compare_gt_iff.
      assert (0 < 10 ^ Z.of_nat (String.length t))%Z by (apply Z.pow_pos_nonneg; lia).
      nia.
Qed.

(** [pretty] writes no leading zero. *)
Lemma length_pretty_N_go (x : N) :
  ∃ k : nat, (∀ s, String.length (pretty_N_go x s) = (k + String.length s)%nat)
    ∧ (x = 0%N → k = 0%nat)
    ∧ ((0 < x)%N → (10 ^ Z.of_nat k ≤ 10 * Z.of_N x)%Z).
Proof.
  induction (N.lt_wf_0 x) as [x _ IH].
  destruct (decide (x = 0%N)) as [->|Hx].
  - exists 0%nat. split_and!; [|done|lia]. intros s. by rewrite pretty_N_go_0.
  - destruct (IH (x `div` 10)%N) as (k & Hlen & Hk0 & Hk); [apply N.div_lt; lia|].
    exists (S k). split_and!; [|lia|].
    + intros s. rewrite pretty_N_go_step by lia. rewrite Hlen. cbn. lia.
    + intros _. rewrite Nat2Z.inj_succ, Z.pow_succ_r by lia.
      destruct (decide (x `div` 10 = 0)%N) as [Hz|Hnz].
      * rewrite (Hk0 Hz). cbn. lia.
      * rewrite N2Z.inj_div in Hk. change (Z.of_N 10) with 10%Z in Hk.
        pose proof (Z.div_mod (Z.of_N x) 10). pose proof (Z.mod_pos_bound (Z.of_N x) 10).
        assert (Z.of_N (x `div` 10) ≠ 0)%Z by lia. rewrite N2Z.inj_div in *.
        change (Z.of_N 10) with 10%Z in *. lia.
Qed.

Lemma length_format_below_million (n : Z) :
  (0 ≤ n < 1000000)%Z → String.length (format_0_gt_6d n) = 6%nat.
Proof.
  intros Hn. rewrite length_format_0_gt_6d.
  destruct n as [|p|p]; [reflexivity| |lia].
  change (pretty (Z.pos p)) with (pretty_N_go (N.pos p) "").
  destruct (length_pretty_N_go (N.pos p)) as (k & Hlen & _ & Hk). rewrite Hlen. cbn [String.length].
  destruct (decide (k ≤ 6)%nat) as [?|Hbig]; [lia|]. exfalso.
  assert (10 ^ 7 ≤ 10 ^ Z.of_nat k)%Z by (apply Z.pow_le_mono_r; lia).
  change (Z.of_N (N.pos p)) with (Z.pos p) in Hk. lia.
Qed.

Lemma parse_digits_format (n : Z) : (0 ≤ n)%Z → parse_digits 0 (format_0_gt_6d n) = Some n.
Proof.
  intros Hn. unfold format_0_gt_6d. cbv zeta.
  by rewrite parse_digits_zero_fill, parse_digits_pretty.
Qed.

Lemma compare_checkpoint_name (m n : Z) :
  (0 ≤ m < 1000000)%Z → (0 ≤ n < 1000000)%Z →
  String.compare (checkpoint_name m) (checkpoint_name n) = (m ?= n)%Z.
Proof.
  intros Hm Hn. unfold checkpoint_name. rewrite compare_app_l.
  rewrite compare_app_r by (by rewrite !length_format_below_million).
  apply (compare_digits _ _ 0%Z); [by rewrite !length_format_below_million|..];
    apply parse_digits_format; lia.
Qed.

Lemma checkpoint_name_inj (m n : Z) :
  (0 ≤ m)%Z → (0 ≤ n)%Z → checkpoint_name m = checkpoint_name n → m = n.
Proof.
  intros Hm Hn Heq.
  assert (py_int (slice_5_to_minus4 (checkpoint_name m))
          = py_int (slice_5_to_minus4 (checkpoint_name n))) as Hp by (by rewrite Heq).
  destruct (slice_checkpoint_name m) as [_ Hsm]. destruct (slice_checkpoint_name n) as [_ Hsn].
  rewrite Hsm, Hsn, !py_int_format_0_gt_6d in Hp by done. congruence.
Qed.

(** *** The scan for the latest checkpoint *)

(** A name the filter of [__init__] keeps: it ends in [pth] and the
    characters between the fifth and the last four read as a number that
    does not exceed [end_iter]. *)
Definition eligible (end_it : Z) (model_name : string) : Prop :=
  slice_last3 model_name = "pth"
  ∧ ∃ n, py_int (slice_5_to_minus4 model_name) = Some n ∧ (n ≤ end_it)%Z.

(** A name on which the filter raises [ValueError]: it ends in [pth]
    and [int] rejects the characters in between. *)
Definition unreadable (model_name : string) : Prop :=
  slice_last3 model_name = "pth" ∧ py_int (slice_5_to_minus4 model_name) = None.

Lemma scan_checkpoints_None end_it l :
  scan_checkpoints end_it l = None ↔ ∃ name, name ∈ l ∧ unreadable name.
Proof.
  unfold unreadable. induction l as [|a l IH]; cbn [scan_checkpoints].
  - split; [done|]. intros (name & Hin & _). by apply elem_of_nil in Hin.
  - destruct (String.eqb_spec (slice_last3 a) "pth") as [Hpth|Hpth].
    + destruct (py_int (slice_5_to_minus4 a)) as [n|] eqn:Hn; cbn [mbind option_bind].
      * destruct (scan_checkpoints end_it l) as [ml|] eqn:Hscan; cbn [mbind option_bind].
        -- split; [done|]. intros (name & Hin & Hp & Hi).
           apply elem_of_cons in Hin as [->|Hin]; [congruence|].
           destruct IH as [_ IH]. discriminate IH. by exists name.
        -- split; [|done]. intros _. destruct IH as [IH _].
           destruct (IH eq_refl) as (name & Hin & Hun). exists name. split; [by right|done].
      * split; [|done]. intros _. exists a. split; [by left|done].
    + rewrite IH. split; intros (name & Hin & Hp & Hi).
      * exists name. split; [by right|done].
      * apply elem_of_cons in Hin as [->|Hin]; [done|]. by exists name.
Qed.

Lemma scan_checkpoints_Some end_it l : ∀ ml,
  scan_checkpoints end_it l = Some ml →
  ∀ name, name ∈ ml ↔ name ∈ l ∧ eligible end_it name.
Proof.
  unfold eligible. induction l as [|a l IH]; intros ml Hscan name; cbn [scan_checkpoints] in Hscan.
  - injection Hscan as <-. split; [by intros ?%elem_of_nil|]. by intros [?%elem_of_nil _].
  - destruct (String.eqb_spec (slice_last3 a) "pth") as [Hpth|Hpth].
    + destruct (py_int (slice_5_to_minus4 a)) as [n|] eqn:Hn; [|done].
      cbn [mbind option_bind] in Hscan.
      destruct (scan_checkpoints end_it l) as [ml'|] eqn:Hscan'; [|done].
      cbn [mbind option_bind] in Hscan. injection Hscan as <-.
      specialize (IH ml' eq_refl name).
      destruct (Z.leb_spec n end_it) as [Hle|Hgt].
      * rewrite !elem_of_cons, IH. split.
        -- intros [->|[? ?]]; [|by auto]. split; [by left|]. split; [done|]. by exists n.
        -- intros [[->|?] ?]; [by left|by right].
      * rewrite elem_of_cons, IH. split; [by intros [? ?]; auto|].
        intros [[->|?] Hel]; [|done]. destruct Hel as (_ & n' & Hn' & ?).
        rewrite Hn in Hn'. injection Hn' as <-. lia.
    + rewrite elem_of_cons, (IH ml Hscan name). split; [by intros [? ?]; auto|].
      intros [[->|?] Hel]; [|done]. by destruct Hel.
Qed.

Lemma last_sorted_Some l x :
  last (Dataset.sorted l) = Some x → x ∈ l ∧ ∀ y, y ∈ l → Dataset.str_le y x.
Proof.
  intros [l' Hl']%last_Some. unfold Dataset.sorted in Hl'.
  pose proof (StronglySorted_merge_sort Dataset.str_le l) as Hsorted.
  pose proof (merge_sort_Permutation Dataset.str_le l) as Hperm.
  rewrite Hl' in Hsorted, Hperm. split.
  - rewrite <- Hperm. apply elem_of_app. right. apply list_elem_of_here.
  - intros y Hy. rewrite <- Hperm in Hy. apply elem_of_app in Hy as [Hy|Hy].
    + eapply StronglySorted_app_1_elem_of; [done..|]. apply list_elem_of_here.
    + apply list_elem_of_singleton in Hy as ->. by destruct (total Dataset.str_le x x).
Qed.

Lemma last_sorted_None l : last (Dataset.sorted l) = None ↔ l = [].
Proof.
  rewrite last_None. unfold Dataset.sorted. split; [|by intros ->].
  intros Hnil. pose proof (merge_sort_Permutation Dataset.str_le l) as Hperm.
  rewrite Hnil in Hperm. by apply Permutation_nil_l in Hperm.
Qed.

Lemma elem_of_listing (entries : gmap string file) name :
  name ∈ (map_to_list entries).*1 ↔ is_Some (entries !! name).
Proof.
  rewrite list_elem_of_fmap. split.
  - intros ([name' f] & -> & Hin%elem_of_map_to_list). by exists f.
  - intros [f Hf]. exists (name, f). split; [done|]. by apply elem_of_map_to_list.
Qed.

(** X7 ([Runner.__init__], the scan under [# Load checkpoint]): the
    name the scan settles on is an entry of the checkpoints directory that
    the filter keeps, and no kept entry comes after it in the order of
    [list.sort]. *)
Theorem latest_checkpoint_greatest r fs name :
  latest_checkpoint r fs = Some name →
  ∃ entries, fs !! checkpoints_dir r = Some entries
    ∧ is_Some (entries !! name)
    ∧ eligible (end_iter (conf r)) name
    ∧ ∀ name', is_Some (entries !! name') → eligible (end_iter (conf r)) name' →
        Dataset.str_le name' name.
Proof.
  unfold latest_checkpoint, listdir. intros Hlatest.
  destruct (fs !! checkpoints_dir r) as [entries|] eqn:Hdir; [|done].
  cbn [mbind option_bind] in Hlatest.
  destruct (scan_checkpoints _ _) as [ml|] eqn:Hscan; [|done].
  cbn [mbind option_bind] in Hlatest.
  apply last_sorted_Some in Hlatest as [Hin Hmax].
  pose proof (scan_checkpoints_Some _ _ _ Hscan) as Hml.
  exists entries. apply Hml in Hin as [Hin Hel]. split_and!; [done|by apply elem_of_listing|done|].
  intros name' Hin' Hel'. apply Hmax, Hml. split; [by apply elem_of_listing|done].
Qed.

(** X8 ([Runner.__init__], the scan under [# Load checkpoint]): the
    scan raises exactly when the checkpoints directory does not exist
    ([FileNotFoundError]), when it holds a name ending in [pth] whose
    middle part is not a number ([ValueError], whatever [end_iter] is),
    or when the filter keeps no entry ([IndexError]). *)
Theorem latest_checkpoint_fails_iff r fs :
  latest_checkpoint r fs = None ↔
    fs !! checkpoints_dir r = None
    ∨ ∃ entries, fs !! checkpoints_dir r = Some entries
        ∧ ((∃ name, is_Some (entries !! name) ∧ unreadable name)
           ∨ ∀ name, is_Some (entries !! name) → ¬ eligible (end_iter (conf r)) name).
Proof.
  unfold latest_checkpoint, listdir.
  destruct (fs !! checkpoints_dir r) as [entries|] eqn:Hdir; [|split; [by left|done]].
  cbn [mbind option_bind].
  destruct (scan_checkpoints _ _) as [ml|] eqn:Hscan; cbn [mbind option_bind].
  - pose proof (scan_checkpoints_Some _ _ _ Hscan) as Hml. rewrite last_sorted_None. split.
    + intros ->. right. exists entries. split; [done|]. right. intros name Hin Hel.
      eapply elem_of_nil, Hml. split; [by apply elem_of_listing|done].
    + intros [?|(entries' & [= <-] & [(name & Hin & Hun)|Hnone])]; [done| |].
      * assert (scan_checkpoints (end_iter (conf r)) (map_to_list entries).*1 = None) as Hfail.
        { apply scan_checkpoints_None. exists name. split; [by apply elem_of_listing|done]. }
        congruence.
      * destruct ml as [|name ml]; [done|]. exfalso.
        assert (name ∈ name :: ml) as Hin by apply list_elem_of_here.
        apply Hml in Hin as [Hin Hel]. apply elem_of_listing in Hin. by eapply Hnone.
  - split; [|done]. intros _. right. exists entries. split; [done|]. left.
    apply scan_checkpoints_None in Hscan as (name & Hin & Hun). exists name.
    split; [by apply elem_of_listing|done].
Qed.

(** *** Saving and resuming *)

(** The dictionary [save_checkpoint] builds from a runner. *)
Definition checkpoint_of (r : t) : checkpoint :=
  {| ck_nerf := nerf_outside r;
     ck_sdf_network_fine := sdf_network r;
     ck_variance_network_fine := deviation_network r;
     ck_color_network_fine := color_network r;
     ck_optimizer := optimizer r;
     ck_iter_step := iter_step r |}.

(** The runner [fresh] after the state of [r] was loaded into it. *)
Definition restored (fresh r : t) : t :=
  {| conf := conf fresh; base_exp_dir := base_exp_dir fresh; iter_step := iter_step r;
     nerf_outside := nerf_outside r; sdf_network := sdf_network r;
     deviation_network := deviation_network r; color_network := color_network r;
     optimizer := optimizer r |}.

Lemma makedirs_entries dir fs : default ∅ (makedirs dir fs !! dir) = default ∅ (fs !! dir).
Proof.
  unfold makedirs. destruct (fs !! dir) as [es|] eqn:Hes; [by rewrite Hes|].
  by rewrite lookup_insert_eq.
Qed.

Lemma save_checkpoint_lookup r fs :
  save_checkpoint r fs !! checkpoints_dir r
  = Some (<[checkpoint_name (iter_step r) := TorchFile (checkpoint_of r)]>
            (default ∅ (fs !! checkpoints_dir r))).
Proof.
  unfold save_checkpoint, torch_save. cbv zeta. rewrite lookup_insert_eq.
  by rewrite makedirs_entries.
Qed.


Lemma checkpoints_dir_same r r' : base_exp_dir r = base_exp_dir r' → checkpoints_dir r = checkpoints_dir r'.
Proof. unfold checkpoints_dir. by intros ->. Qed.

Lemma load_checkpoint_of r fresh name fs :
  same_architecture r fresh →
  torch_load (checkpoints_dir fresh) name fs = Some (checkpoint_of r) →
  load_checkpoint fresh name fs = Some (restored fresh r).
Proof.
  intros (Hdir & Hn & Hs & Hd & Hc & Ho) Hload. unfold load_checkpoint. rewrite Hload.
  cbn [mbind option_bind checkpoint_of ck_nerf ck_sdf_network_fine
    ck_variance_network_fine ck_color_network_fine ck_optimizer ck_iter_step].
  rewrite !load_state_dict_same by done.
  cbn [mbind option_bind]. rewrite optimizer_load_state_dict_same by done.
  reflexivity.
Qed.

Lemma eligible_checkpoint_name end_it n :
  (0 ≤ n ≤ end_it)%Z → eligible end_it (checkpoint_name n).
Proof.
  intros Hn. destruct (slice_checkpoint_name n) as [Hpth Hnum]. split; [done|].
  exists n. rewrite Hnum, py_int_format_0_gt_6d by lia. split; [done|lia].
Qed.

Lemma readable_checkpoint_name n : (0 ≤ n)%Z → ¬ unreadable (checkpoint_name n).
Proof.
  intros Hn [_ Hun]. destruct (slice_checkpoint_name n) as [_ Hnum].
  rewrite Hnum, py_int_format_0_gt_6d in Hun by lia. done.
Qed.

(** X9 ([save_checkpoint] then [Runner.__init__] with [is_continue],
    or with a [checkpoint] argument that is true): a run saved at an
    iteration below one million that [end_iter] admits is resumed from
    that very checkpoint, provided the other names ending in [pth] in the
    directory are checkpoints of earlier iterations. *)
Theorem resume_restores_latest r fresh fs is_continue checkpoint :
  is_continue = true ∨ checkpoint ≠ 0%Z →
  same_architecture r fresh →
  (0 ≤ iter_step r < 1000000)%Z →
  (iter_step r ≤ end_iter (conf fresh))%Z →
  (∀ name, is_Some (default ∅ (fs !! checkpoints_dir r) !! name) →
     slice_last3 name ≠ "pth"
     ∨ ∃ m, (0 ≤ m ≤ iter_step r)%Z ∧ name = checkpoint_name m) →
  init fresh is_continue checkpoint (save_checkpoint r fs) = Some (restored fresh r).
Proof.
  intros Hflag Harch Hiter Hend Hothers.
  pose proof Harch as (Hdir & _). apply checkpoints_dir_same in Hdir.
  set (name_r := checkpoint_name (iter_step r)).
  assert (∀ name,
    name ∈ (map_to_list (<[name_r := TorchFile (checkpoint_of r)]>
                           (default ∅ (fs !! checkpoints_dir r)))).*1 →
    name = name_r ∨ slice_last3 name ≠ "pth"
    ∨ ∃ m, (0 ≤ m ≤ iter_step r)%Z ∧ name = checkpoint_name m) as Hnames.
  { intros name Hin%elem_of_listing. apply lookup_insert_is_Some in Hin as [Heq|[_ Hin]]; [by left|].
    right. by apply Hothers. }
  assert (latest_checkpoint fresh (save_checkpoint r fs) = Some name_r) as Hlatest.
  { unfold latest_checkpoint, listdir. rewrite <- Hdir, save_checkpoint_lookup.
    cbn [mbind option_bind]. fold name_r.
    destruct (scan_checkpoints _ _) as [ml|] eqn:Hscan; cbn [mbind option_bind].
    - pose proof (scan_checkpoints_Some _ _ _ Hscan) as Hml.
      assert (name_r ∈ ml) as Hin_r.
      { apply Hml. split; [|apply eligible_checkpoint_name; lia].
        apply elem_of_listing. rewrite lookup_insert_eq. by eexists. }
      destruct (last (Dataset.sorted ml)) as [x|] eqn:Hlast.
      + apply last_sorted_Some in Hlast as [Hx Hmax]. f_equal.
        apply Hml in Hx as [Hx [Hpth _]].
        destruct (Hnames x Hx) as [?|[?|(m & Hm & ->)]]; [done..|].
        specialize (Hmax name_r Hin_r). unfold Dataset.str_le, String.leb, name_r in Hmax.
        rewrite compare_checkpoint_name in Hmax by lia.
        destruct (Z.compare_spec (iter_step r) m) as [Heq|?|?]; [by rewrite <- Heq|lia|done].
      + apply last_sorted_None in Hlast. subst ml. by apply elem_of_nil in Hin_r.
    - apply scan_checkpoints_None in Hscan as (name & Hin & Hun). exfalso.
      destruct (Hnames name Hin) as [->|[Hpth|(m & Hm & ->)]].
      + by apply (readable_checkpoint_name (iter_step r)); [lia|].
      + by destruct Hun.
      + by apply (readable_checkpoint_name m); [lia|]. }
  assert (load_checkpoint fresh name_r (save_checkpoint r fs) = Some (restored fresh r)) as Hload.
  { apply load_checkpoint_of; [done|]. rewrite <- Hdir. apply torch_load_save. }
  unfold init. rewrite Hlatest. cbn [mbind option_bind].
  destruct is_continue; [by destruct (bool_decide _)|].
  destruct Hflag as [?|Hc]; [done|]. by rewrite bool_decide_eq_true_2.
Qed.


(** X11 ([save_checkpoint], [load_checkpoint]): checkpoints of different
    iterations never overwrite each other.  After a later save in the
    same experiment directory the earlier checkpoint still restores the
    earlier state. *)
Theorem save_checkpoint_keeps_earlier r1 r2 fresh fs :
  same_architecture r1 fresh →
  base_exp_dir r2 = base_exp_dir r1 →
  (0 ≤ iter_step r1)%Z → (0 ≤ iter_step r2)%Z → iter_step r1 ≠ iter_step r2 →
  load_checkpoint fresh (checkpoint_name (iter_step r1))
    (save_checkpoint r2 (save_checkpoint r1 fs)) = Some (restored fresh r1).
Proof.
  intros Harch Hdir2 Hi1 Hi2 Hne.
  pose proof Harch as (Hdir & _). apply checkpoints_dir_same in Hdir, Hdir2.
  apply load_checkpoint_of; [done|]. unfold torch_load.
  rewrite <- Hdir, <- Hdir2, save_checkpoint_lookup. cbn [mbind option_bind].
  rewrite lookup_insert_ne by (intros Heq; by apply checkpoint_name_inj in Heq).
  rewrite Hdir2, save_checkpoint_lookup. simpl default. by rewrite lookup_insert_eq.
Qed.

Lemma load_state_dict_Some current sd sd' :
  load_state_dict current sd = Some sd' → sd' = sd ∧ length <$> current = length <$> sd.
Proof. unfold load_state_dict. case_bool_decide; [|done]. by intros [= <-]. Qed.

Lemma optimizer_load_state_dict_Some current sd sd' :
  optimizer_load_state_dict current sd = Some sd' →
  sd' = sd
  ∧ (length ∘ params) <$> param_groups current = (length ∘ params) <$> param_groups sd.
Proof. unfold optimizer_load_state_dict. case_bool_decide; [|done]. by intros [= <-]. Qed.

(** X12 ([load_checkpoint]): a load that succeeds leaves the
    configuration and the experiment directory alone, yields a runner of
    the architecture it started from, and that runner holds exactly what
    the file holds, the iteration counter included (which is not compared
    with [end_iter]). *)
Theorem load_checkpoint_keeps_architecture r name fs r' :
  load_checkpoint r name fs = Some r' →
  conf r' = conf r
  ∧ same_architecture r r'
  ∧ torch_load (checkpoints_dir r) name fs = Some (checkpoint_of r').
Proof.
  unfold load_checkpoint. intros Hload.
  destruct (torch_load _ _ _) as [[n s d c o i]|]; [|done].
  cbn [mbind option_bind ck_nerf ck_sdf_network_fine
    ck_variance_network_fine ck_color_network_fine ck_optimizer ck_iter_step] in Hload.
  apply bind_Some in Hload as (n' & [-> Hn]%load_state_dict_Some & Hload).
  apply bind_Some in Hload as (s' & [-> Hs]%load_state_dict_Some & Hload).
  apply bind_Some in Hload as (d' & [-> Hd]%load_state_dict_Some & Hload).
  apply bind_Some in Hload as (c' & [-> Hc]%load_state_dict_Some & Hload).
  apply bind_Some in Hload as (o' & [-> Ho]%optimizer_load_state_dict_Some & Hload).
  injection Hload as <-. split; [done|]. split; [|done].
  unfold same_architecture. cbn. done.
Qed.

(** X13 ([save_checkpoint], [Runner.__init__]): below one million
    iterations the order in which [list.sort] puts two checkpoint names
    is the order of their iterations, so the last name of the sorted list
    is the checkpoint of the highest iteration.  (From one million on the
    names grow to seven digits and the order of the strings is no longer
    that of the numbers, see [checkpoint_names_beyond_million].) *)
Theorem checkpoint_names_sort_by_iteration (m n : Z) :
  (0 ≤ m < 1000000)%Z → (0 ≤ n < 1000000)%Z →
  (Dataset.str_le (checkpoint_name m) (checkpoint_name n) ↔ (m ≤ n)%Z)
  ∧ (checkpoint_name m = checkpoint_name n ↔ m = n)
  ∧ String.length (checkpoint_name m) = 15%nat.
Proof.
  intros Hm Hn. split_and!.
  - unfold Dataset.str_le, String.leb. rewrite compare_checkpoint_name by done.
    destruct (Z.compare_spec m n); split; (done || lia).
  - split; [apply checkpoint_name_inj; lia|by intros ->].
  - unfold checkpoint_name. rewrite !length_string_app, length_format_below_million by done.
    reflexivity.
Qed.

Lemma checkpoint_names_beyond_million :
  ¬ Dataset.str_le (checkpoint_name 999999) (checkpoint_name 1000000).
Proof. vm_compute. discriminate. Qed.

(** *** Instances of the checkpoint properties *)

Lemma example_same_architecture m n : same_architecture (example_runner m) (example_runner n).
Proof. unfold same_architecture, example_runner. cbn. by rewrite !map_fmap_singleton. Qed.

(** The experiment directory after saves at iterations 5, 1000 and 2000;
    [end_iter] is 1100. *)
Definition crowded_fs : filesystem :=
  save_checkpoint (example_runner 2000) (save_checkpoint (example_runner 1000) example_fs).

Lemma crowded_latest_checkpoint :
  latest_checkpoint (example_runner 0) crowded_fs = Some "ckpt_001000.pth".
Proof. vm_compute. reflexivity. Qed.

Lemma latest_checkpoint_greatest_witness :
  latest_checkpoint (example_runner 0) crowded_fs = Some "ckpt_001000.pth"
  ∧ ∃ entries, crowded_fs !! checkpoints_dir (example_runner 0) = Some entries
      ∧ is_Some (entries !! "ckpt_001000.pth")
      ∧ eligible (end_iter (conf (example_runner 0))) "ckpt_001000.pth"
      ∧ ∀ name', is_Some (entries !! name') →
          eligible (end_iter (conf (example_runner 0))) name' →
          Dataset.str_le name' "ckpt_001000.pth".
Proof.
  split; [exact crowded_latest_checkpoint|].
  exact (latest_checkpoint_greatest (example_runner 0) crowded_fs "ckpt_001000.pth"
           crowded_latest_checkpoint).
Defined.

Lemma example_fs_names name :
  is_Some (default ∅ (example_fs !! checkpoints_dir (example_runner 1000)) !! name) →
  slice_last3 name ≠ "pth"
  ∨ ∃ m, (0 ≤ m ≤ iter_step (example_runner 1000))%Z ∧ name = checkpoint_name m.
Proof.
  unfold example_fs.
  change (checkpoints_dir (example_runner 1000)) with (checkpoints_dir (example_runner 5)).
  rewrite save_checkpoint_lookup. simpl default.
  intros [<-|[_ Hin]]%lookup_insert_is_Some.
  - right. exists 5%Z. split; [cbn; lia|done].
  - rewrite lookup_empty in Hin. simpl in Hin. rewrite lookup_empty in Hin. by destruct Hin.
Qed.

Lemma resume_restores_latest_witness :
  init (example_runner 0) true 0 (save_checkpoint (example_runner 1000) example_fs)
  = Some (restored (example_runner 0) (example_runner 1000)).
Proof.
  apply (resume_restores_latest (example_runner 1000) (example_runner 0) example_fs true 0%Z).
  - by left.
  - apply example_same_architecture.
  - cbn. lia.
  - cbn. lia.
  - apply example_fs_names.
Defined.

Lemma save_checkpoint_keeps_earlier_witness :
  load_checkpoint (example_runner 0) "ckpt_000005.pth"
    (save_checkpoint (example_runner 1000) (save_checkpoint (example_runner 5) ∅))
  = Some (restored (example_runner 0) (example_runner 5)).
Proof.
  apply (save_checkpoint_keeps_earlier (example_runner 5) (example_runner 1000)
           (example_runner 0) ∅).
  - apply example_same_architecture.
  - reflexivity.
  - cbn. lia.
  - cbn. lia.
  - cbn. lia.
Defined.

Lemma example_load :
  load_checkpoint (example_runner 0) "ckpt_000005.pth" example_fs = Some (example_runner 5).
Proof.
  change (example_runner 5) with (restored (example_runner 0) (example_runner 5)).
  apply load_checkpoint_of; [apply example_same_architecture|].
  apply (torch_load_save (checkpoint_of (example_runner 5))).
Qed.

Lemma load_checkpoint_keeps_architecture_witness :
  load_checkpoint (example_runner 0) "ckpt_000005.pth" example_fs = Some (example_runner 5)
  ∧ conf (example_runner 5) = conf (example_runner 0)
  ∧ same_architecture (example_runner 0) (example_runner 5)
  ∧ torch_load (checkpoints_dir (example_runner 0)) "ckpt_000005.pth" example_fs
    = Some (checkpoint_of (example_runner 5)).
Proof.
  split; [exact example_load|].
  exact (load_checkpoint_keeps_architecture (example_runner 0) "ckpt_000005.pth" example_fs
           (example_runner 5) example_load).
Defined.

Lemma checkpoint_names_sort_by_iteration_witness :
  Dataset.str_le (checkpoint_name 5) (checkpoint_name 1000)
  ∧ ¬ Dataset.str_le (checkpoint_name 1000) (checkpoint_name 5).
Proof.
  split.
  - apply (checkpoint_names_sort_by_iteration 5 1000); lia.
  - intros Hle. apply (checkpoint_names_sort_by_iteration 1000 5) in Hle; lia.
Defined.

(** *** Interpolated views *)

(** [l[i]] on a Python list: a negative index counts from the end, an
    index out of range raises [IndexError]. *)
Definition py_index {A} (l : list A) (i : Z) : option A :=
  if (0 <=? i)%Z then l !! Z.to_nat i
  else if (- Z.of_nat (length l) <=? i)%Z then l !! Z.to_nat (Z.of_nat (length l) + i)
  else None.

(** The ratio of frame [i]:
    [np.sin(((i / n_frames) - 0.5) * np.pi) * 0.5 + 0.5]. *)
Definition interpolate_ratio (n_frames i : Z) : R :=
  sin ((IZR i / IZR n_frames - 0.5) * PI) * 0.5 + 0.5.

Section InterpolateView.

(** [render_novel_image(idx_0, idx_1, ratio, resolution_level)]: the
    image the networks render; they are outside the model. *)
Variable frame : Type.
Variable render_novel_image : Z → Z → R → Z → frame.

(** One round of the second loop,
    [images.append(images[n_frames - i - 1])]. *)
Definition append_mirrored (n_frames : Z) (images : option (list frame)) (i : Z)
  : option (list frame) :=
  l ← images; x ← py_index l (n_frames - i - 1); Some (l ++ [x]).

(** The frames [interpolate_view] writes to the video, in order:
<<
    images = []
    n_frames = 60
    for i in range(n_frames):
        images.append(self.render_novel_image(img_idx_0, img_idx_1,
                          np.sin(((i / n_frames) - 0.5) * np.pi) * 0.5 + 0.5,
                          resolution_level=4))
    for i in range(n_frames):
        images.append(images[n_frames - i - 1])
>> *)
Definition interpolate_view (img_idx_0 img_idx_1 : Z) : option (list frame) :=
  let n_frames := 60%Z in
  let images :=
    (λ i, render_novel_image img_idx_0 img_idx_1 (interpolate_ratio n_frames i) 4)
      <$> seqZ 0 n_frames in
  foldl (append_mirrored n_frames) (Some images) (seqZ 0 n_frames).

Lemma mirror_loop (l : list frame) (m : nat) : ∀ (k : nat) r,
  (k + m = length l)%nat →
  foldl (append_mirrored (Z.of_nat (length l))) (Some (l ++ r))
        (seqZ (Z.of_nat k) (Z.of_nat m))
  = Some (l ++ r ++ drop k (reverse l)).
Proof.
  induction m as [|m IH]; intros k r Hk.
  - rewrite seqZ_nil by lia. cbn [foldl].
    rewrite drop_ge by (rewrite length_reverse; lia). by rewrite app_nil_r.
  - rewrite seqZ_cons by lia. cbn [foldl].
    replace (Z.succ (Z.of_nat k)) with (Z.of_nat (S k)) by lia.
    replace (Z.pred (Z.of_nat (S m))) with (Z.of_nat m) by lia.
    destruct (lookup_lt_is_Some_2 (reverse l) k) as [x Hx]; [rewrite length_reverse; lia|].
    assert (append_mirrored (Z.of_nat (length l)) (Some (l ++ r)) (Z.of_nat k)
            = Some (l ++ (r ++ [x]))) as ->.
    { unfold append_mirrored, py_index. cbn [mbind option_bind].
      destruct (Z.leb_spec 0 (Z.of_nat (length l) - Z.of_nat k - 1)) as [_|?]; [|lia].
      replace (Z.to_nat (Z.of_nat (length l) - Z.of_nat k - 1)) with (length l - S k)%nat by lia.
      rewrite lookup_app_l by lia. rewrite <- reverse_lookup by lia. rewrite Hx.
      cbn [mbind option_bind]. by rewrite <- app_assoc. }
    rewrite IH by lia. rewrite (drop_S _ _ _ Hx). by rewrite <- !app_assoc.
Qed.

Lemma interpolate_ratio_arg (i : Z) :
  (0 ≤ i ≤ 60)%Z → - (PI / 2) <= (IZR i / IZR 60 - 0.5) * PI <= PI / 2.
Proof.
  intros [Hlo Hhi]. apply IZR_le in Hlo, Hhi. pose proof PI_RGT_0. split; nra.
Qed.

(** X14 ([interpolate_view]): the video has 120 frames.  The first 60
    are rendered at ratios that start at exactly 0, increase strictly
    and stay below 1; the last 60 are the same frames in reverse order.
    So the video starts and ends on the first view, and the second view
    itself (ratio 1) is never rendered. *)
Theorem interpolate_view_frames (img_idx_0 img_idx_1 : Z) :
  ∃ images,
    interpolate_view img_idx_0 img_idx_1 = Some (images ++ reverse images)
    ∧ length images = 60%nat
    ∧ (∀ i : nat, (i < 60)%nat →
         images !! i
         = Some (render_novel_image img_idx_0 img_idx_1 (interpolate_ratio 60 (Z.of_nat i)) 4))
    ∧ interpolate_ratio 60 0 = 0
    ∧ (∀ i j : Z, (0 ≤ i < j)%Z → (j < 60)%Z →
         0 <= interpolate_ratio 60 i
         ∧ interpolate_ratio 60 i < interpolate_ratio 60 j
         ∧ interpolate_ratio 60 j < 1).
Proof.
  unfold interpolate_view. cbv zeta.
  set (images := (λ i, render_novel_image img_idx_0 img_idx_1 (interpolate_ratio 60 i) 4)
                   <$> seqZ 0 60).
  assert (length images = 60%nat) as Hlen.
  { unfold images. by rewrite length_fmap, length_seqZ. }
  exists images. split_and!.
  - pose proof (mirror_loop images 60 0 [] ltac:(lia)) as Hloop.
    rewrite Hlen, app_nil_r in Hloop. exact Hloop.
  - exact Hlen.
  - intros i Hi. unfold images. rewrite list_lookup_fmap, lookup_seqZ_lt by lia.
    cbn [fmap option_fmap option_map]. by rewrite Z.add_0_l.
  - unfold interpolate_ratio.
    replace ((IZR 0 / IZR 60 - 0.5) * PI) with (- (PI / 2)) by lra.
    rewrite sin_neg, sin_PI2. lra.
  - intros i j Hij Hj. unfold interpolate_ratio.
    pose proof (interpolate_ratio_arg i ltac:(lia)) as [Hi1 Hi2].
    pose proof (interpolate_ratio_arg j ltac:(lia)) as [Hj1 Hj2].
    pose proof (SIN_bound ((IZR i / IZR 60 - 0.5) * PI)) as [Hsin _].
    assert ((IZR i / IZR 60 - 0.5) * PI < (IZR j / IZR 60 - 0.5) * PI) as Hlt.
    { assert (IZR i < IZR j) by (apply IZR_lt; lia). pose proof PI_RGT_0. nra. }
    assert ((IZR j / IZR 60 - 0.5) * PI < PI / 2) as Hlt1.
    { assert (IZR j < IZR 60) by (apply IZR_lt; lia). pose proof PI_RGT_0. nra. }
    pose proof (sin_increasing_1 _ _ Hi1 Hi2 Hj1 Hj2 Hlt) as Hinc.
    pose proof (sin_increasing_1 _ (PI / 2) Hj1 Hj2 ltac:(pose proof PI_RGT_0; lra) ltac:(lra) Hlt1)
      as Hone.
    rewrite sin_PI2 in Hone. split_and!; lra.
Qed.

End InterpolateView.

(** *** The modes of the entry point *)

(** [s.split(sep)] for a separator of one character. *)
Fixpoint split_on (sep : ascii) (s : string) : list string :=
  match s with
  | EmptyString => [EmptyString]
  | String a s' =>
      if Ascii.eqb a sep then EmptyString :: split_on sep s'
      else match split_on sep s' with
           | part :: parts => String a part :: parts
           | [] => [String a EmptyString]
           end
  end.

(** What the entry point calls on the runner it built. *)
Inductive action :=
  | RunTrain
  | RunEvaluate
  | RunValidateMesh (world_space : bool) (resolution : Z) (threshold : R) (save_numpy_sdf : bool)
  | RunInterpolateView (img_idx_0 img_idx_1 : Z)
  | RunNothing.

(** The dispatch on [args.mode]:
<<
    if args.mode == 'train':
        runner.train()
    elif args.mode == 'evaluate':
        runner.evaluate()
    elif args.mode == 'validate_mesh':
        runner.validate_mesh(world_space=False, resolution=512,
                             threshold=args.mcube_threshold, save_numpy_sdf = False)
    elif args.mode.startswith('interpolate'):
        _, img_idx_0, img_idx_1 = args.mode.split('_')
        img_idx_0 = int(img_idx_0)
        img_idx_1 = int(img_idx_1)
        runner.interpolate_view(img_idx_0, img_idx_1)
>>
    [None] is the [ValueError] of the unpacking or of [int]. *)
Definition main_dispatch (a : args) : option action :=
  if String.eqb (arg_mode a) "train" then Some RunTrain
  else if String.eqb (arg_mode a) "evaluate" then Some RunEvaluate
  else if String.eqb (arg_mode a) "validate_mesh"
    then Some (RunValidateMesh false 512 (arg_mcube_threshold a) false)
  else if Dataset.starts_with "interpolate" (arg_mode a) then
    match split_on "_" (arg_mode a) with
    | [_; img_idx_0; img_idx_1] =>
        i0 ← py_int img_idx_0; i1 ← py_int img_idx_1; Some (RunInterpolateView i0 i1)
    | _ => None
    end
  else Some RunNothing.

(** The number of occurrences of a character. *)
Fixpoint count_char (sep : ascii) (s : string) : nat :=
  match s with
  | EmptyString => 0
  | String a s' => (if Ascii.eqb a sep then 1 else 0) + count_char sep s'
  end.

Lemma length_split_on sep s : length (split_on sep s) = S (count_char sep s).
Proof.
  induction s as [|a s IH]; [done|]. cbn [split_on count_char].
  destruct (Ascii.eqb a sep); cbn [length]; [by rewrite IH|].
  destruct (split_on sep s) as [|part parts]; [done|]. cbn in IH |- *. lia.
Qed.

Lemma split_on_single sep s : count_char sep s = 0%nat → split_on sep s = [s].
Proof.
  induction s as [|a s IH]; [done|]. cbn [split_on count_char].
  destruct (Ascii.eqb a sep); [done|]. intros Hc. by rewrite IH.
Qed.

Lemma split_on_app sep s rest :
  count_char sep s = 0%nat → split_on sep (s +:+ String sep rest) = s :: split_on sep rest.
Proof.
  induction s as [|a s IH].
  - intros _. change ("" +:+ String sep rest) with (String sep rest).
    cbn [split_on]. by rewrite Ascii.eqb_refl.
  - change (String a s +:+ ?x) with (String a (s +:+ x)). cbn [split_on count_char].
    destruct (Ascii.eqb a sep); [done|]. intros Hc. by rewrite IH.
Qed.

Lemma digits_no_underscore s : ∀ acc, is_Some (parse_digits acc s) → count_char "_" s = 0%nat.
Proof.
  induction s as [|a s IH]; intros acc Hs; [done|]. cbn [parse_digits count_char] in *.
  destruct (digit_of a) as [d|] eqn:Hd; [|by destruct Hs].
  cbn [mbind option_bind] in Hs. rewrite (IH _ Hs).
  destruct (Ascii.eqb_spec a "_") as [->|_]; [done|reflexivity].
Qed.

Lemma py_int_pretty (n : Z) : (0 ≤ n)%Z → py_int (pretty n) = Some n.
Proof.
  intros Hn. pose proof (parse_digits_pretty n Hn) as Hparse.
  destruct (pretty n) as [|a s] eqn:Hp.
  - cbn in Hparse. injection Hparse as <-. vm_compute in Hp. discriminate.
  - rewrite py_int_of_digits; [done|]. eapply parse_digits_head. rewrite Hparse. by eexists.
Qed.

(** X15 (the entry point): the mode [interpolate_<a>_<b>], with [a]
    and [b] written in decimal, calls [interpolate_view(a, b)]. *)
Theorem main_dispatch_interpolate (a : args) (i0 i1 : Z) :
  (0 ≤ i0)%Z → (0 ≤ i1)%Z →
  arg_mode a = "interpolate_" +:+ pretty i0 +:+ "_" +:+ pretty i1 →
  main_dispatch a = Some (RunInterpolateView i0 i1).
Proof.
  intros H0 H1 Hmode. unfold main_dispatch. rewrite Hmode.
  change (String.eqb ("interpolate_" +:+ ?x) "train") with false.
  change (String.eqb ("interpolate_" +:+ ?x) "evaluate") with false.
  change (String.eqb ("interpolate_" +:+ ?x) "validate_mesh") with false.
  change (Dataset.starts_with "interpolate" ("interpolate_" +:+ ?x)) with true.
  cbv iota.
  change ("interpolate_" +:+ pretty i0 +:+ "_" +:+ pretty i1)
    with ("interpolate" +:+ String "_" (pretty i0 +:+ String "_" (pretty i1))).
  rewrite split_on_app by reflexivity.
  rewrite split_on_app
    by (eapply digits_no_underscore; rewrite parse_digits_pretty; by eauto).
  rewrite split_on_single
    by (eapply digits_no_underscore; rewrite parse_digits_pretty; by eauto).
  by rewrite !py_int_pretty.
Qed.

(** X16 (the entry point): a mode that starts with [interpolate] and
    does not hold exactly two underscores fails in the unpacking of
    [args.mode.split('_')], after the runner was built. *)
Theorem main_dispatch_interpolate_arity (a : args) :
  Dataset.starts_with "interpolate" (arg_mode a) = true →
  count_char "_" (arg_mode a) ≠ 2%nat →
  main_dispatch a = None.
Proof.
  intros Hpre Hcount. unfold main_dispatch.
  destruct (String.eqb_spec (arg_mode a) "train") as [Heq|_];
    [by rewrite Heq in Hpre|].
  destruct (String.eqb_spec (arg_mode a) "evaluate") as [Heq|_];
    [by rewrite Heq in Hpre|].
  destruct (String.eqb_spec (arg_mode a) "validate_mesh") as [Heq|_];
    [by rewrite Heq in Hpre|].
  rewrite Hpre. pose proof (length_split_on "_" (arg_mode a)) as Hlen.
  destruct (split_on "_" (arg_mode a)) as [|p0 [|p1 [|p2 [|p3 ps]]]]; try done.
  cbn in Hlen. lia.
Qed.

Definition interpolate_args (mode : string) : args :=
  {| arg_conf := "./confs/base.conf"; arg_mode := mode; arg_mcube_threshold := 0;
     arg_is_continue := true; arg_checkpoint := 0; arg_gpu := 0; arg_case := "bear" |}.

Lemma main_dispatch_interpolate_witness :
  main_dispatch (interpolate_args "interpolate_3_12") = Some (RunInterpolateView 3 12).
Proof.
  apply (main_dispatch_interpolate (interpolate_args "interpolate_3_12") 3 12);
    [lia|lia|reflexivity].
Defined.

Lemma main_dispatch_interpolate_arity_witness :
  main_dispatch (interpolate_args "interpolate") = None
  ∧ main_dispatch (interpolate_args "interpolate_3") = None.
Proof.
  split.
  - apply (main_dispatch_interpolate_arity (interpolate_args "interpolate"));
      [reflexivity|cbn; lia].
  - apply (main_dispatch_interpolate_arity (interpolate_args "interpolate_3"));
      [reflexivity|cbn; lia].
Defined.

(** *** What the schedule writes *)

Lemma set_lr_params x (gs : list param_group) :
  (length ∘ params) <$> (set_lr x <$> gs) = (length ∘ params) <$> gs.
Proof. rewrite <- list_fmap_compose. by apply list_fmap_ext. Qed.

Lemma set_lr_twice x (gs : list param_group) : set_lr x <$> (set_lr x <$> gs) = set_lr x <$> gs.
Proof. rewrite <- list_fmap_compose. by apply list_fmap_ext. Qed.

(** X21 ([update_learning_rate]): the update writes the rate of every
    parameter group and nothing else, the rate it writes depends on the
    configuration and the iteration counter only (not on the rate the
    optimizer held, for instance one restored from a checkpoint), and a
    second update in the same iteration changes nothing. *)
Theorem update_learning_rate_overrides (r r' : t) :
  update_learning_rate r = Some r' →
  conf r' = conf r ∧ base_exp_dir r' = base_exp_dir r ∧ iter_step r' = iter_step r
  ∧ nerf_outside r' = nerf_outside r ∧ sdf_network r' = sdf_network r
  ∧ deviation_network r' = deviation_network r ∧ color_network r' = color_network r
  ∧ opt_state (optimizer r') = opt_state (optimizer r)
  ∧ params <$> param_groups (optimizer r') = params <$> param_groups (optimizer r)
  ∧ same_architecture r r'
  ∧ update_learning_rate r' = Some r'
  ∧ ∃ f, learning_factor (conf r) (iter_step r) = Some f
      ∧ ∀ r2 r2', conf r2 = conf r → iter_step r2 = iter_step r →
          update_learning_rate r2 = Some r2' →
          Forall (λ g, lr g = learning_rate (conf r) * f) (param_groups (optimizer r2')).
Proof.
  unfold update_learning_rate. intros Hup.
  destruct (learning_factor (conf r) (iter_step r)) as [f|] eqn:Hf; [|done].
  cbn [mbind option_bind] in Hup. injection Hup as <-.
  cbn [conf base_exp_dir iter_step nerf_outside sdf_network deviation_network color_network
       optimizer opt_state param_groups].
  split_and!; try done.
  - rewrite <- list_fmap_compose. by apply list_fmap_ext.
  - unfold same_architecture. cbn. by rewrite set_lr_params.
  - rewrite Hf. cbn [mbind option_bind]. by rewrite set_lr_twice.
  - exists f. split; [done|]. intros r2 r2' Hc Hi. rewrite Hc, Hi, Hf.
    cbn [mbind option_bind]. intros [= <-]. cbn [optimizer param_groups].
    by apply Forall_fmap, Forall_true.
Qed.

Lemma update_learning_rate_overrides_witness :
  ∃ r', update_learning_rate (example_runner 600) = Some r'
        ∧ update_learning_rate r' = Some r'
        ∧ same_architecture (example_runner 600) r'.
Proof.
  destruct (update_learning_rate (example_runner 600)) as [r'|] eqn:Hup.
  - destruct (update_learning_rate_overrides (example_runner 600) r' Hup)
      as (_ & _ & _ & _ & _ & _ & _ & _ & _ & Harch & Hidem & _).
    exists r'. exact (conj eq_refl (conj Hidem Harch)).
  - exfalso. unfold update_learning_rate in Hup.
    rewrite learning_factor_decay in Hup; [done|simpl; lra|simpl; lra].
Defined.

(** *** The photometric loss *)









End Runner.
